(** * assembly/patch.py: breakpoints, gap refinement, patch preparation
      and certificates

    A shallow embedding of the data-processing routines of
    [jcvi/assembly/patch.py] (Python 2):

    - [check_markers], the reading of the genetic map and the singleton
      filter of [mapbreaks];
    - the per-breakpoint gap selection loop of [refine];
    - [merge_ranges] and the condensing loop of [prepare];
    - the per-component loop of [certificate].

    Python exceptions are values of [exc]; a computation that may raise has
    type [result A].  Files that the routines write are modelled by the list
    of lines written to them, in order. *)

From Stdlib Require Import ZArith QArith Ascii String List Lia OrdersEx.
From Stdlib Require Import SpecFloat.
From stdpp Require Import base option list gmap strings pretty.

Local Open Scope string_scope.
Local Open Scope list_scope.

(** ** Exceptions *)

Inductive exc : Type :=
| IndexError
| ValueError
| TypeError
| KeyError
| AssertionError
| UnboundLocalError.

Definition result (A : Type) : Type := exc + A.

Abbreviation ok := (@inr exc _) (only parsing).
Abbreviation raise := (@inl exc _) (only parsing).

Definition rbind {A B} (m : result A) (k : A → result B) : result B :=
  match m with
  | inl e => inl e
  | inr x => k x
  end.

Notation "'let*' x ':=' m 'in' k" := (rbind m (fun x => k))
  (at level 10, x pattern, m at level 100, k at level 200).

(** [for x in xs: st = body(st, x)], stopping at the first exception. *)
Fixpoint for_each {A S} (body : S → A → result S) (xs : list A) (st : S)
  : result S :=
  match xs with
  | [] => ok st
  | x :: xs' => let* st' := body st x in for_each body xs' st'
  end.

(** ** Python built-ins used by the module *)

(** [l[i]] for [i >= 0]. *)
Definition index {A} (l : list A) (i : nat) : result A :=
  match l !! i with
  | Some x => ok x
  | None => raise IndexError
  end.

(** [l[-1]]. *)
Definition index_last {A} (l : list A) : result A :=
  match last l with
  | Some x => ok x
  | None => raise IndexError
  end.

(** [s.split(sep)] for a one-character separator: the pieces between the
    occurrences of [sep]; never empty. *)
Fixpoint split_on (sep : ascii) (s : string) : list string :=
  match s with
  | EmptyString => [EmptyString]
  | String c rest =>
      if Ascii.eqb c sep then EmptyString :: split_on sep rest
      else match split_on sep rest with
           | piece :: pieces => String c piece :: pieces
           | [] => [String c EmptyString]
           end
  end.

(** [x, y = l]: unpacking into exactly two names. *)
Definition unpack2 {A} (l : list A) : result (A * A) :=
  match l with
  | [x; y] => ok (x, y)
  | _ => raise ValueError
  end.

Definition tab : string := String (ascii_of_nat 9) EmptyString.

(** [sep.join(l)]. *)
Definition join (sep : string) (l : list string) : string :=
  String.concat sep l.

(** ** [check_markers] *)

(** [OK, BREAK, END = range(3)] *)
Inductive label : Type := OK | BREAK | END.

Definition label_eqb (x y : label) : bool :=
  match x, y with
  | OK, OK | BREAK, BREAK | END, END => true
  | _, _ => false
  end.

Definition row : Type := list string.

(** Modelled from the spec: [hamming_distance] of [jcvi.algorithms.matrix]
    is not part of this module.  It is the number of positions at which the
    two genotype rows disagree, a position where either call is the
    [ignore] mark not being counted; positions are paired up to the length
    of the shorter row. *)
Fixpoint hamming_distance (a b : list string) (ignore : string) : nat :=
  match a, b with
  | x :: a', y :: b' =>
      (if String.eqb x ignore || String.eqb y ignore then 0
       else if String.eqb x y then 0 else 1)
      + hamming_distance a' b' ignore
  | _, _ => 0
  end.

Definition dot : ascii := ascii_of_nat 46.

(** A Python [float] is an IEEE 754 binary64 number: 53 bits of mantissa,
    infinities at exponent 1024, results rounded to the nearest, ties to
    even. *)
Abbreviation float := spec_float (only parsing).

(** The conversion of an [int] to [float], as in [int * float]. *)
Definition float_of_int (n : Z) : float := binary_normalize 53 1024 n 0 false.

Definition float_mul (x y : float) : float := SFmul 53 1024 x y.

Definition float_div (x y : float) : float := SFdiv 53 1024 x y.

(** [n <= x] for an [int] [n] and a [float] [x]: the comparison is exact,
    and false when [x] is not a number. *)
Definition int_le_float (n : Z) (x : float) : bool :=
  match x with
  | S754_nan => false
  | S754_infinity s => negb s
  | S754_zero _ => (n <=? 0)%Z
  | S754_finite s m e =>
      let v := if s then Zneg m else Zpos m in
      match e with
      | Zneg p => (n * Zpos (Pos.pow 2 p) <=? v)%Z
      | _ => (n <=? v * 2 ^ e)%Z
      end
  end.

Definition check_markers (a b : row) (maxdiff : float)
  : result (label * option (string * string * string)) :=
  let* aid := index a 0 in
  let ageno := tail a in
  let* bid := index b 0 in
  let bgeno := tail b in
  let* (ascf, apos) := unpack2 (split_on dot aid) in
  let* (bscf, bpos) := unpack2 (split_on dot bid) in
  if negb (String.eqb ascf bscf) then ok (END, None)
  else
    let diff := hamming_distance ageno bgeno "-" in
    let max_allowed :=
      float_mul (float_of_int (Z.of_nat (length ageno))) maxdiff in
    if int_le_float (Z.of_nat diff) max_allowed then ok (OK, None)
    else ok (BREAK, Some (ascf, apos, bpos)).

(** ** [mapbreaks]: singleton removal and reporting *)

(** Modelled from the spec: [pairwise] of [jcvi.utils.iter] is not part of
    this module.  It yields the consecutive pairs [(s0, s1), (s1, s2), ...]
    of its argument. *)
Fixpoint pairwise {A} (l : list A) : list (A * A) :=
  match l with
  | a :: (b :: _) as rest => (a, b) :: pairwise rest
  | _ => []
  end.

(** The body of [for i in xrange(1, len(data) - 1)]; the state is
    [(good, nsingletons)]. *)
Definition singleton_body (data : list row) (diff : float)
    (st : list row * nat) (i : nat) : result (list row * nat) :=
  let '(good, nsingletons) := st in
  let* a := index data i in
  let* before := index data (i - 1) in
  let* (left_label, left_rr) := check_markers before a diff in
  let* after := index data (i + 1) in
  let* (right_label, right_rr) := check_markers a after diff in
  if label_eqb left_label BREAK && label_eqb right_label BREAK
  then ok (good, S nsingletons)
  else ok (good ++ [a], nsingletons).

(** [xrange(1, len(data) - 1)]: empty when [data] has fewer than three
    rows. *)
Definition interior_range (data : list row) : list nat :=
  seq 1 (length data - 2).

Definition remove_singletons (data : list row) (diff : float)
  : result (list row * nat) :=
  for_each (singleton_body data diff) (interior_range data) ([], 0).

(** The body of [for a, b in pairwise(good)]; the state is the list of
    lines printed so far. *)
Definition report_body (diff : float) (out : list string) (ab : row * row)
  : result (list string) :=
  let '(a, b) := ab in
  let* (lbl, rr) := check_markers a b diff in
  if label_eqb lbl BREAK then
    match rr with
    | Some (scf, apos, bpos) => ok (out ++ [join tab [scf; apos; bpos]])
    | None => raise TypeError
    end
  else ok out.

Definition report_breaks (good : list row) (diff : float) : result (list string) :=
  for_each (report_body diff) (pairwise good) [].

(** [mapbreaks] from the parsed [data] on: the lines printed. *)
Definition mapbreaks (data : list row) (diff : float) : result (list string) :=
  let* (good, nsingletons) := remove_singletons data diff in
  report_breaks good diff.

(** ** [refine]: the largest gap of each breakpoint region *)

(** [itertools.groupby]: maximal runs of consecutive elements with equal
    keys, each with its key. *)
Fixpoint groupby {A K} `{EqDecision K} (key : A → K) (l : list A)
  : list (K * list A) :=
  match l with
  | [] => []
  | x :: l' =>
      match groupby key l' with
      | (k, g) :: groups =>
          if bool_decide (key x = k) then (k, x :: g) :: groups
          else (key x, [x]) :: (k, g) :: groups
      | [] => [(key x, [x])]
      end
  end.

(** Comparison of two [str] values: byte by byte. *)
Definition str_cmp (x y : string) : comparison := String_as_OT.compare x y.

(** Comparison of two lists of [str]: the first position where they differ
    decides; a proper prefix is smaller. *)
Fixpoint row_cmp (a b : row) : comparison :=
  match a, b with
  | [], [] => Eq
  | [], _ :: _ => Lt
  | _ :: _, [] => Gt
  | x :: a', y :: b' =>
      match str_cmp x y with
      | Eq => row_cmp a' b'
      | c => c
      end
  end.

(** Comparison of two [(int, list)] tuples. *)
Definition sized_cmp (x y : Z * row) : comparison :=
  match Z.compare (fst x) (fst y) with
  | Eq => row_cmp (snd x) (snd y)
  | c => c
  end.

(** [x > y] for a three-way comparison. *)
Definition is_gt {A} (cmp : A → A → comparison) (x y : A) : bool :=
  match cmp x y with
  | Gt => true
  | _ => false
  end.

Definition sized_gt : Z * row → Z * row → bool := is_gt sized_cmp.

(** [max(l)]: the scan keeps the first item and replaces it only by a
    strictly greater one; [ValueError] on an empty list. *)
Definition py_max {A} (gt : A → A → bool) (l : list A) : result A :=
  match l with
  | [] => raise ValueError
  | x :: l' =>
      ok (fold_left (fun best item => if gt item best then item else best)
                    l' x)
  end.

(** A list comprehension whose element expression may raise. *)
Fixpoint comprehension {A B} (f : A → result B) (l : list A)
  : result (list B) :=
  match l with
  | [] => ok []
  | x :: l' =>
      let* y := f x in
      let* ys := comprehension f l' in
      ok (y :: ys)
  end.

Section Refine.

(** The built-in [int] on a [str] is taken as given. *)
Variable int : string → result Z.

(** [(int(x[-1]), x)] *)
Definition sized (x : row) : result (Z * row) :=
  let* size := index_last x in
  let* n := int size in
  ok (n, x).

(** [len(gaps) == 1 and gaps[0][3] == "."] *)
Definition no_overlap (gaps : list row) : result bool :=
  if Nat.eqb (length gaps) 1 then
    let* gap := index gaps 0 in
    let* name := index gap 3 in
    ok (String.eqb name ".")
  else ok false.

(** The body of [for b, gaps in groupby(data, key=lambda x: x[:3])]; the
    state is the lines written to [nogapsfw] and to [largestgapsfw]. *)
Definition refine_body (st : list string * list string)
    (bg : row * list row) : result (list string * list string) :=
  let '(nogapsfw, largestgapsfw) := st in
  let '(b, gaps) := bg in
  let* nogap := no_overlap gaps in
  if nogap then
    let* gap := index gaps 0 in
    let* overlap := index gap 4 in
    if String.eqb overlap "-1"
    then ok (nogapsfw ++ [join tab b], largestgapsfw)
    else raise AssertionError
  else
    let* gaps' := comprehension sized gaps in
    let* best := py_max sized_gt gaps' in
    let maxgap := snd best in
    ok (nogapsfw, largestgapsfw ++ [join tab (drop 3 maxgap)]).

Definition refine_select (data : list row)
  : result (list string * list string) :=
  for_each refine_body (groupby (take 3) data) ([], []).

End Refine.

(** [int] on an optionally signed run of decimal digits, for the examples. *)
Definition digit_of (c : ascii) : option Z :=
  let n := nat_of_ascii c in
  if (48 <=? n)%nat && (n <=? 57)%nat then Some (Z.of_nat (n - 48)) else None.

Fixpoint digits_value (acc : Z) (s : string) : option Z :=
  match s with
  | EmptyString => Some acc
  | String c rest =>
      match digit_of c with
      | Some d => digits_value (10 * acc + d) rest
      | None => None
      end
  end.

Definition int_decimal (s : string) : result Z :=
  let unsigned (t : string) : result Z :=
    match t with
    | EmptyString => raise ValueError
    | _ => match digits_value 0 t with
           | Some n => ok n
           | None => raise ValueError
           end
    end in
  match s with
  | String c rest =>
      if Ascii.eqb c (ascii_of_nat 45) then
        let* n := unsigned rest in ok (- n)%Z
      else if Ascii.eqb c (ascii_of_nat 43) then unsigned rest
      else unsigned s
  | EmptyString => raise ValueError
  end.

(** ** [merge_ranges] and [prepare] *)

(** [str(n)] for an [int]. *)
Definition str (n : Z) : string := pretty n.

(** [min(l)]: the scan keeps the first item and replaces it only by a
    strictly smaller one; [ValueError] on an empty list. *)
Definition py_min {A} (lt : A → A → bool) (l : list A) : result A :=
  match l with
  | [] => raise ValueError
  | x :: l' =>
      ok (fold_left (fun best item => if lt item best then item else best)
                    l' x)
  end.

(** The attributes of a BED record that the module reads. *)
Module BedLine.
Record t : Type := mk
  { seqid : string; start : Z; end_ : Z; accn : string; strand : string }.
End BedLine.

(** The attributes of a parsed range that the module reads. *)
Module Range.
Record t : Type := mk { seqid : string; start : Z; end_ : Z }.
End Range.

(** A reference to a function object; two references to the same function
    compare equal. *)
Inductive function_object : Type := lambda_is_bb.

Global Instance function_object_eq_dec : EqDecision function_object.
Proof. solve_decision. Defined.

(** [for k, g in groupby(l, key): st = body(st, (k, list(g)))] for a [key]
    that may raise.  [cur] is the key and the members read so far of the
    group being collected; the body runs on a group once the first element
    of the next group has been read and its key computed, or the input is
    exhausted. *)
Fixpoint for_groups {A K S} `{EqDecision K} (key : A → result K)
    (body : S → K * list A → result S)
    (l : list A) (cur : option (K * list A)) (st : S) : result S :=
  match l with
  | [] =>
      match cur with
      | None => ok st
      | Some kg => body st kg
      end
  | x :: l' =>
      let* kx := key x in
      match cur with
      | None => for_groups key body l' (Some (kx, [x])) st
      | Some (k, g) =>
          if bool_decide (kx = k)
          then for_groups key body l' (Some (k, g ++ [x])) st
          else
            let* st' := body st (k, g) in
            for_groups key body l' (Some (kx, [x])) st'
      end
  end.

Definition error_multiple_seqid : string :=
  "Multiple seqid found in pocket. Aborted.".

(** What [prepare] has written: the lines of the patchers BED file, the
    lines of the TPF file, and the messages given to [logging.error]. *)
Record prepare_state : Type := mk_prepare_state
  { bed_fw : list string; tpf_fw : list string; log : list string }.

(** The state in which the condensing loop of [prepare] starts: the TPF
    file holds its first line. *)
Definition prepare_start (pf : string) : prepare_state :=
  {| bed_fw := []; tpf_fw := [join tab ["telomere"; pf; "na"]]; log := [] |}.

Section Prepare.

(** [range_parse] of [jcvi.utils.range] is taken as given. *)
Variable range_parse : string → result Range.t.

(** The result is what [merge_ranges] returns ([None] for a bare
    [return]) together with the messages it logs. *)
Definition merge_ranges (beds : list BedLine.t)
  : result (option (string * Z * Z * string) * list string) :=
  let m := map BedLine.accn beds in
  let* mr := comprehension range_parse m in
  let mc : gset string := list_to_set (map Range.seqid mr) in
  if negb (Nat.eqb (size mc) 1) then ok (None, [error_multiple_seqid])
  else
    let* mc := index (elements mc) 0 in
    let* ms := py_min Z.ltb (map Range.start mr) in
    let* me := py_max Z.gtb (map Range.end_ mr) in
    let neg_strands :=
      Z.of_nat
        (length (filter (fun x => BedLine.strand x = "-") beds)) in
    let pos_strands := (Z.of_nat (length beds) - neg_strands)%Z in
    let strand := if (neg_strands >? pos_strands)%Z then "-" else "+" in
    ok (Some (mc, ms, me, strand), []).

(** The backbone prefix, the sequence sizes and the file prefix. *)
Variable bb : string.
Variable sizes : gmap string Z.
Variable pf : string.

Definition is_bb (x : BedLine.t) : bool := String.prefix bb (BedLine.accn x).

(** First pass: [for k, sb in groupby(bed, key=(seqid, start, end))]. *)
Definition uniq_body (uniqbed : list BedLine.t)
    (ksb : (string * Z * Z) * list BedLine.t) : list BedLine.t :=
  let sb := snd ksb in
  let backbone := filter (fun x => is_bb x = true) sb in
  let others := filter (fun x => is_bb x = false) sb in
  match backbone, others with
  | _ :: _, _ :: _ => uniqbed ++ backbone
  | _, _ => uniqbed ++ sb
  end.

Definition make_uniq (bed : list BedLine.t) : list BedLine.t :=
  fold_left uniq_body
    (groupby (fun x => (BedLine.seqid x, BedLine.start x, BedLine.end_ x))
             bed)
    [].

(** Second pass.  [key = lambda x: (is_bb, range_parse(x.accn).seqid)]:
    the first component is the function [is_bb] itself. *)
Definition condense_key (x : BedLine.t) : result (function_object * string) :=
  let* r := range_parse (BedLine.accn x) in
  ok (lambda_is_bb, Range.seqid r).

Definition Flank : Z := 10000.

(** The body of the second [for k, sb in groupby(bed, key=key)]. *)
Definition condense_body (st : prepare_state)
    (ksb : (function_object * string) * list BedLine.t)
  : result prepare_state :=
  let sb := snd ksb in
  let* (merged, messages) := merge_ranges sb in
  match merged with
  | None => raise TypeError
  | Some (chr, start, end_, strand) =>
      match sizes !! chr with
      | None => raise KeyError
      | Some size =>
          let start := Z.max (start - Flank) 0 in
          let end_ := Z.min (end_ + Flank) size in
          let id := chr +:+ ":" +:+ str start +:+ "-" +:+ str end_ in
          ok {| bed_fw := bed_fw st ++ [join tab [chr; str start; str end_]];
                tpf_fw := tpf_fw st ++ [join tab [id; pf; strand]];
                log := log st ++ messages |}
      end
  end.

Definition condense (bed : list BedLine.t) : result prepare_state :=
  for_groups condense_key condense_body bed None (prepare_start pf).

Definition prepare (bed : list BedLine.t) : result prepare_state :=
  condense (make_uniq bed).

End Prepare.

(** A range parser for the examples: accessions [seqid:start-end], the
    layout [prepare] itself gives to the ids it writes. *)
Definition range_parse_accn (s : string) : result Range.t :=
  let* (chr, se) := unpack2 (split_on (ascii_of_nat 58) s) in
  let* (a, b) := unpack2 (split_on (ascii_of_nat 45) se) in
  let* a := int_decimal a in
  let* b := int_decimal b in
  if (a >? b)%Z then ok (Range.mk chr b a) else ok (Range.mk chr a b).

(** ** [certificate] *)

(** The attributes of a TPF line that the module reads. *)
Module TPFLine.
Record t : Type := mk
  { component_id : string; object : string; is_gap : bool;
    isCloneGap : bool; gap_type : string }.
End TPFLine.

(** A phase is the [int] that [phase] returns or the [str] ["0"]. *)
Inductive phase_value : Type :=
| PhaseInt (n : Z)
| PhaseStr (s : string).

Definition str_phase (v : phase_value) : string :=
  match v with
  | PhaseInt n => str n
  | PhaseStr s => s
  end.

(** [os.path.join(a, b)] for a directory name [a] without a trailing
    separator. *)
Definition op_join (a b : string) : string :=
  if String.prefix "/" b then b else a +:+ "/" +:+ b.

(** What [certificate] has done so far: the lines written to the
    certificate file, the argument lists of the calls made to [overlap],
    and the local variable [bphase], unbound until first assigned. *)
Record certificate_state : Type := mk_certificate_state
  { fw : list string;
    overlap_calls : list (list string);
    bphase : option phase_value }.

(** The state in which the loop of [certificate] starts. *)
Definition certificate_start : certificate_state :=
  {| fw := []; overlap_calls := []; bphase := None |}.

Section Certificate.

(** Taken as given: [tpf.getNorthSouthClone], [os.path.exists],
    [Fasta(af).itersizes().next()], [overlap] (its [certificateline], or
    [None] for a false result) and the table that [check_certificate]
    returns. *)
Variable getNorthSouthClone : nat → option TPFLine.t * option TPFLine.t.
Variable op_exists : string → bool.
Variable first_size : string → result (string * Z).
Variable overlap : list string → option string.
Variable data : gmap (string * string * string) string.

Variable bb : string.

Definition fastadir : string := "fasta".

Definition phase (aid : string) : result (Z * Z) :=
  let af := op_join fastadir (aid +:+ ".fasta") in
  let* (k, fs) := first_size af in
  if negb (String.eqb aid k) then raise AssertionError
  else
    let ph := if String.prefix bb aid then 2%Z else 1%Z in
    ok (ph, fs).

(** The print that ends an iteration of the inner loop. *)
Definition write_line (st : certificate_state) (tag : string)
    (a : TPFLine.t) (aphase : Z) (aid ov : string)
  : result certificate_state :=
  match bphase st with
  | None => raise UnboundLocalError
  | Some bph =>
      ok {| fw := fw st ++
                  [join tab [tag; TPFLine.object a; str aphase;
                             str_phase bph; aid; ov]];
            overlap_calls := overlap_calls st;
            bphase := bphase st |}
  end.

(** The body of [for tag, p in (("North", north), ("South", south))]. *)
Definition neighbor_body (a : TPFLine.t) (aid : string) (aphase asize : Z)
    (st : certificate_state) (tp : string * option TPFLine.t)
  : result certificate_state :=
  let '(tag, p) := tp in
  match p with
  | None =>
      let ov := "telomere" +:+ tab +:+ str asize in
      write_line st tag a aphase aid ov
  | Some p =>
      if TPFLine.isCloneGap p then
        let st := {| fw := fw st; overlap_calls := overlap_calls st;
                     bphase := Some (PhaseStr "0") |} in
        let ov := TPFLine.gap_type p +:+ tab +:+ str asize in
        write_line st tag a aphase aid ov
      else
        let bid := TPFLine.component_id p in
        let* (bph, bsize) := phase bid in
        let st := {| fw := fw st; overlap_calls := overlap_calls st;
                     bphase := Some (PhaseInt bph) |} in
        let key := (tag, aid, bid) in
        match data !! key with
        | Some line =>
            ok {| fw := fw st ++ [line];
                  overlap_calls := overlap_calls st;
                  bphase := bphase st |}
        | None =>
            let ar := [aid; bid; "--dir=" +:+ fastadir] in
            let o := overlap ar in
            let st := {| fw := fw st;
                         overlap_calls := overlap_calls st ++ [ar];
                         bphase := bphase st |} in
            let ov :=
              match o with
              | Some certificateline => certificateline
              | None => bid +:+ tab +:+ str asize +:+ tab +:+ "None"
              end in
            write_line st tag a aphase aid ov
        end
  end.

(** The body of [for i, a in enumerate(tpf)]. *)
Definition component_body (st : certificate_state) (ia : nat * TPFLine.t)
  : result certificate_state :=
  let '(i, a) := ia in
  if TPFLine.is_gap a then ok st
  else
    let aid := TPFLine.component_id a in
    let af := op_join fastadir (aid +:+ ".fasta") in
    if negb (op_exists af) then raise AssertionError
    else
      let '(north, south) := getNorthSouthClone i in
      let* (aphase, asize) := phase aid in
      for_each (neighbor_body a aid aphase asize)
               [("North", north); ("South", south)] st.

Definition certificate (tpf : list TPFLine.t) : result certificate_state :=
  for_each component_body (zip (seq 0 (length tpf)) tpf) certificate_start.

End Certificate.

(** ** Reading the input files *)

(** The characters that [str.split()] treats as separators: space, tab,
    line feed, vertical tab, form feed and carriage return. *)
Definition is_space (c : ascii) : bool :=
  let n := nat_of_ascii c in
  (n =? 32)%nat || ((9 <=? n)%nat && (n <=? 13)%nat).

(** The field that starts at the head of [s] (empty if [s] starts with a
    separator) and the fields after it. *)
Fixpoint split_go (s : string) : string * list string :=
  match s with
  | EmptyString => (EmptyString, [])
  | String c rest =>
      let '(field, fields) := split_go rest in
      if is_space c then
        (EmptyString,
         match field with
         | EmptyString => fields
         | _ => field :: fields
         end)
      else (String c field, fields)
  end.

(** [s.split()]: the maximal runs of non-separator characters. *)
Definition split_ws (s : string) : list string :=
  let '(field, fields) := split_go s in
  match field with
  | EmptyString => fields
  | _ => field :: fields
  end.

(** [for row in fp: if row.startswith("locus_name"): break]: what is left
    of the file for the second loop of [mapbreaks]. *)
Fixpoint after_header (lines : list string) : list string :=
  match lines with
  | [] => []
  | row :: rest =>
      if String.prefix "locus_name" row then rest else after_header rest
  end.

(** [for row in fp: data.append(row.split())] *)
Definition parse_mstmap (lines : list string) : list row :=
  map split_ws (after_header lines).

(** [mapbreaks] on the lines of its input file. *)
Definition mapbreaks_file (lines : list string) (diff : float)
  : result (list string) :=
  mapbreaks (parse_mstmap lines) diff.

(** ** Notions used to state the properties *)

(** [c] occurs in [s]. *)
Fixpoint occurs (c : ascii) (s : string) : bool :=
  match s with
  | EmptyString => false
  | String c' rest => Ascii.eqb c' c || occurs c rest
  end.

(** A marker id of the form [scaffold.position]. *)
Definition marker_id (id scf pos : string) : Prop :=
  id = scf +:+ String dot pos ∧ occurs dot scf = false ∧ occurs dot pos = false.

(** A marker row: an id of the form [scaffold.position] followed by the
    genotype calls. *)
Definition marker_row (r : row) : Prop :=
  ∃ id geno scf pos, r = id :: geno ∧ marker_id id scf pos.

(** The number that a finite [float] stands for. *)
Definition float_Q (x : float) : Q :=
  match x with
  | S754_finite s m e =>
      let v := if s then Zneg m else Zpos m in
      match e with
      | Zneg p => Qmake v (Pos.pow 2 p)
      | _ => inject_Z (v * 2 ^ e)
      end
  | _ => 0%Q
  end.

(** The integer [n] is greater than [x], or [x] is not a number: the cases
    in which [n <= x] is false. *)
Definition int_exceeds_float (n : Z) (x : float) : Prop :=
  match x with
  | S754_nan => True
  | S754_infinity s => s = true
  | _ => (float_Q x < inject_Z n)%Q
  end.

(** The [float] that the decimal [p / q] is read as: the binary64 number
    nearest to it. *)
Definition float_ratio (p q : Z) : float :=
  float_div (float_of_int p) (float_of_int q).

(** The default of the option [--diff], [.1]. *)
Definition default_diff : float := float_ratio 1 10.

(** The fraction of the genotype positions of [ageno] at which the two rows
    disagree, missing calls not counting as a disagreement. *)
Definition mismatch_fraction (ageno bgeno : list string) : Q :=
  (inject_Z (Z.of_nat (hamming_distance ageno bgeno "-"))
   / inject_Z (Z.of_nat (length ageno)))%Q.

(** The comparison of the rows at positions [i] and [j] is classified
    BREAK. *)
Definition classified_break (data : list row) (diff : float) (i j : nat) : bool :=
  match data !! i, data !! j with
  | Some a, Some b =>
      match check_markers a b diff with
      | inr (BREAK, _) => true
      | _ => false
      end
  | _, _ => false
  end.

(** The marker at position [i] has a BREAK on both sides. *)
Definition singleton (data : list row) (diff : float) (i : nat) : bool :=
  classified_break data diff (i - 1) i && classified_break data diff i (i + 1).

(** The positions, in input order, of the interior markers that are not
    singletons. *)
Definition retained_positions (data : list row) (diff : float) : list nat :=
  filter (fun i => singleton data diff i = false) (interior_range data).

Definition rows_at (data : list row) (positions : list nat) : list row :=
  omap (fun i => data !! i) positions.

(** The line reported for a pair of rows, if the pair is a BREAK. *)
Definition break_line (diff : float) (ab : row * row) : option string :=
  match check_markers (fst ab) (snd ab) diff with
  | inr (BREAK, Some (scf, apos, bpos)) => Some (join tab [scf; apos; bpos])
  | _ => None
  end.

(** The number of occurrences of [c] in [s]. *)
Fixpoint count_char (c : ascii) (s : string) : nat :=
  match s with
  | EmptyString => 0
  | String c' rest => (if Ascii.eqb c' c then 1 else 0) + count_char c rest
  end.

(** The label of a comparison, exceptions kept. *)
Definition label_of (r : result (label * option (string * string * string)))
  : result label :=
  match r with
  | inl e => inl e
  | inr (lbl, _) => inr lbl
  end.

(** A field as [split_ws] yields it: not empty, no separator in it. *)
Fixpoint spaceless (s : string) : bool :=
  match s with
  | EmptyString => true
  | String c rest => negb (is_space c) && spaceless rest
  end.

Definition is_field (s : string) : bool :=
  negb (String.eqb s EmptyString) && spaceless s.

(** The key of the first pass of [prepare]: the interval of the record. *)
Definition interval_key (x : BedLine.t) : string * Z * Z :=
  (BedLine.seqid x, BedLine.start x, BedLine.end_ x).

(** The lines that a merged and clipped interval [(chr, start, end,
    strand)] gives to the patchers BED file and to the TPF file. *)
Definition bed_line (entry : string * Z * Z * string) : string :=
  let '(chr, start, end_, _) := entry in
  join tab [chr; str start; str end_].

Definition tpf_line (pf : string) (entry : string * Z * Z * string) : string :=
  let '(chr, start, end_, strand) := entry in
  join tab [chr +:+ ":" +:+ str start +:+ "-" +:+ str end_; pf; strand].

(** The neighbour pairs that the loop of [certificate] goes through: for
    each component that is not a gap, in the order of the tiling path, the
    component with its north and with its south neighbour. *)
Definition directions
    (getNorthSouthClone : nat → option TPFLine.t * option TPFLine.t)
    (ia : nat * TPFLine.t) : list (TPFLine.t * string * option TPFLine.t) :=
  let '(i, a) := ia in
  if TPFLine.is_gap a then []
  else
    let '(north, south) := getNorthSouthClone i in
    [(a, "North", north); (a, "South", south)].

Definition neighbour_pairs
    (getNorthSouthClone : nat → option TPFLine.t * option TPFLine.t)
    (tpf : list TPFLine.t) : list (TPFLine.t * string * option TPFLine.t) :=
  flat_map (directions getNorthSouthClone) (zip (seq 0 (length tpf)) tpf).

(** The key (direction, current clone id, neighbour clone id) of a pair
    whose neighbour is a clone; none for a missing neighbour or a gap. *)
Definition pair_key (d : TPFLine.t * string * option TPFLine.t)
  : option (string * string * string) :=
  match d with
  | (a, tag, Some p) =>
      if TPFLine.isCloneGap p then None
      else Some (tag, TPFLine.component_id a, TPFLine.component_id p)
  | (_, _, None) => None
  end.

(** The certificate line stored for a pair, if its key is in the table. *)
Definition stored_line_of
    (data : gmap (string * string * string) string)
    (d : TPFLine.t * string * option TPFLine.t) : option string :=
  match pair_key d with
  | Some key => data !! key
  | None => None
  end.

(** The arguments of the call to [overlap] that a pair needs: those of a
    pair of clones whose key is not in the table. *)
Definition overlap_call_of
    (data : gmap (string * string * string) string)
    (d : TPFLine.t * string * option TPFLine.t) : option (list string) :=
  match pair_key d with
  | Some (tag, aid, bid) =>
      match data !! (tag, aid, bid) with
      | Some _ => None
      | None => Some [aid; bid; "--dir=" +:+ fastadir]
      end
  | None => None
  end.

(** The line written for a pair is the stored one, when there is one. *)
Definition reuses_stored
    (data : gmap (string * string * string) string)
    (d : TPFLine.t * string * option TPFLine.t) (line : string) : Prop :=
  ∀ stored, stored_line_of data d = Some stored → line = stored.

(** A comparison function that decides a strict total order. *)
Record total_order {A} (cmp : A → A → comparison) : Prop := mk_total_order
  { cmp_eq : ∀ x y, cmp x y = Eq ↔ x = y;
    cmp_gt : ∀ x y, cmp x y = Gt → cmp y x = Lt;
    cmp_trans : ∀ x y z, cmp x y = Lt → cmp y z = Lt → cmp x z = Lt }.

(** The number of records on the negative strand, and of the others. *)
Definition neg_count (beds : list BedLine.t) : Z :=
  Z.of_nat (length (filter (fun x => BedLine.strand x = "-") beds)).

Definition pos_count (beds : list BedLine.t) : Z :=
  (Z.of_nat (length beds) - neg_count beds)%Z.

(** A group as [groupby] hands it to the loop body: non-empty, every member
    having the group's key. *)
Definition group_of {A K} (key : A → result K) (k : K) (g : list A) : Prop :=
  g ≠ [] ∧ ∀ x, x ∈ g → key x = ok k.

(** A line of the patchers BED file whose interval is [start - Flank] and
    [end + Flank] of a merged interval, clipped to the sequence. *)
Definition clipped_line (sizes : gmap string Z) (line : string) : Prop :=
  ∃ chr ms me size,
    sizes !! chr = Some size ∧
    let start := Z.max (ms - Flank) 0 in
    let end_ := Z.min (me + Flank) size in
    line = join tab [chr; str start; str end_] ∧
    (0 ≤ start)%Z ∧ (end_ ≤ size)%Z.

(** ** Example inputs *)

(** Seven markers of one scaffold; the third differs from both of its
    neighbours, and the genotypes change between the fifth and the sixth. *)
Definition markers_example : list row :=
  [ ["s1.10"; "A"; "A"]; ["s1.20"; "A"; "A"]; ["s1.30"; "B"; "B"];
    ["s1.40"; "A"; "A"]; ["s1.50"; "A"; "A"]; ["s1.60"; "C"; "C"];
    ["s1.70"; "C"; "C"] ].

(** Two markers with 20 genotype calls that disagree at 3 positions, and
    two with 50 calls that disagree at 29. *)
Definition calls20_a : row := "s1.10" :: replicate 20 "A".
Definition calls20_b : row := "s1.20" :: replicate 3 "B" ++ replicate 17 "A".
Definition calls50_a : row := "s1.10" :: replicate 50 "A".
Definition calls50_b : row := "s1.20" :: replicate 29 "B" ++ replicate 21 "A".

(** The lines of a small genetic map file, the same seven markers. *)
Definition nl : string := String (ascii_of_nat 10) EmptyString.

Definition mstmap_preamble : list string :=
  ["population_type DH" +:+ nl; "number_of_loci 7" +:+ nl; nl].

Definition mstmap_header : string := join tab ["locus_name"; "i1"; "i2"] +:+ nl.

Definition mstmap_markers : list string :=
  map (fun r => join tab r +:+ nl) markers_example.

(** Two gaps of size 10 overlapping the breakpoint region s1:100-200. *)
Definition tie_first : row := ["s1"; "100"; "200"; "s1"; "150"; "160"; "10"].
Definition tie_last : row := ["s1"; "100"; "200"; "s1"; "120"; "130"; "10"].

(** Records of an alignment of chr1 onto ranges of Scaffold1 and
    Scaffold2. *)
Definition bed_unstranded : BedLine.t :=
  BedLine.mk "chr1" 5 50 "Scaffold1:100-200" ".".
Definition bed_minus : BedLine.t :=
  BedLine.mk "chr1" 60 70 "Scaffold1:150-300" "-".
Definition bed_plus : BedLine.t :=
  BedLine.mk "chr1" 80 90 "Scaffold1:120-250" "+".
Definition bed_other : BedLine.t :=
  BedLine.mk "chr1" 95 99 "Scaffold2:150-300" "+".

(** Two consecutive records with the same parsed sequence id, of which only
    the first has the backbone prefix [chr1:1]. *)
Definition bed_inside : BedLine.t :=
  BedLine.mk "ctg7" 1 500 "chr1:100-200" "+".
Definition bed_outside : BedLine.t :=
  BedLine.mk "ctg7" 600 900 "chr1:200-300" "+".

Definition sizes_example : gmap string Z :=
  {[ "Scaffold1" := 5000%Z; "Scaffold2" := 50000%Z; "chr1" := 100000%Z ]}.

(** The range of the accession of a record, for records whose accession
    parses. *)
Definition parsed_example (x : BedLine.t) : Range.t :=
  match range_parse_accn (BedLine.accn x) with
  | inr r => r
  | inl _ => Range.mk EmptyString 0 0
  end.

(** A tiling path of a gap and two clones, each clone with a FASTA file of
    its own, and a certificate table that already holds the line of the
    first clone towards the second. *)
Definition gap_line : TPFLine.t := TPFLine.mk "clone" "chr1" true true "clone".
Definition clone_a : TPFLine.t := TPFLine.mk "AC1" "chr1" false false "".
Definition clone_b : TPFLine.t := TPFLine.mk "AC2" "chr1" false false "".

Definition first_size_example (af : string) : result (string * Z) :=
  if String.eqb af "fasta/AC1.fasta" then ok ("AC1", 58443%Z)
  else if String.eqb af "fasta/AC2.fasta" then ok ("AC2", 37835%Z)
  else raise AssertionError.

Definition stored_line : string :=
  join tab ["South"; "chr1"; "1"; "1"; "AC1"; "AC2"; "58443"; "37835";
            "58443"; "+"; "Non-terminal"].

Definition data_example : gmap (string * string * string) string :=
  {[ ("South", "AC1", "AC2") := stored_line ]}.

(** A table that also holds the line of the second clone towards the
    first. *)
Definition stored_line_back : string :=
  join tab ["North"; "chr1"; "1"; "1"; "AC2"; "AC1"; "37835"; "1"; "20392";
            "+"; "Non-terminal"].

Definition data_full : gmap (string * string * string) string :=
  {[ ("South", "AC1", "AC2") := stored_line;
     ("North", "AC2", "AC1") := stored_line_back ]}.

(** The neighbours in the tiling path [gap_line; clone_a; clone_b], and in
    the tiling path [clone_a; clone_b] that starts at the chromosome end. *)
Definition neighbours_example (i : nat) : option TPFLine.t * option TPFLine.t :=
  match i with
  | 1%nat => (Some gap_line, Some clone_b)
  | _ => (Some clone_a, None)
  end.

Definition neighbours_at_end (i : nat) : option TPFLine.t * option TPFLine.t :=
  match i with
  | 0%nat => (None, Some clone_b)
  | _ => (Some clone_a, None)
  end.

(** What [certificate] leaves on [gap_line; clone_a; clone_b] when
    [overlap] finds nothing. *)
Definition certificate_example_state : certificate_state :=
  {| fw := [join tab ["North"; "chr1"; "1"; "0"; "AC1"; "clone"; "58443"];
            stored_line;
            join tab ["North"; "chr1"; "1"; "1"; "AC2"; "AC1"; "37835";
                      "None"];
            join tab ["South"; "chr1"; "1"; "1"; "AC2"; "telomere"; "37835"]];
     overlap_calls := [["AC2"; "AC1"; "--dir=fasta"]];
     bphase := Some (PhaseInt 1) |}.

(** * Properties *)

(** ** Splitting *)

Lemma split_on_absent sep s :
  occurs sep s = false → split_on sep s = [s].
Proof.
  induction s as [|c s IH]; simpl; [done|].
  intros H. apply orb_false_iff in H as [Hc Hs].
  rewrite Hc, (IH Hs). done.
Qed.

Lemma split_on_first sep s t :
  occurs sep s = false →
  split_on sep (s +:+ String sep t) = s :: split_on sep t.
Proof.
  induction s as [|c s IH]; simpl.
  - intros _. by rewrite Ascii.eqb_refl.
  - intros H. apply orb_false_iff in H as [Hc Hs].
    rewrite Hc, (IH Hs). done.
Qed.

Lemma split_marker_id id scf pos :
  marker_id id scf pos → unpack2 (split_on dot id) = ok (scf, pos).
Proof.
  intros (-> & Hs & Hp).
  rewrite (split_on_first _ _ _ Hs), (split_on_absent _ _ Hp). done.
Qed.

(** ** The threshold of [check_markers] *)

Lemma int_le_float_false n x :
  int_le_float n x = false ↔ int_exceeds_float n x.
Proof.
  destruct x as [s|s| |s m e]; simpl.
  - rewrite Z.leb_gt. unfold Qlt. simpl. lia.
  - by destruct s.
  - done.
  - destruct e as [|p|p]; rewrite Z.leb_gt; unfold Qlt; simpl; lia.
Qed.

(** The same-scaffold branch of [check_markers], once both ids are split. *)
Lemma check_markers_unfold aid bid ageno bgeno ascf apos bscf bpos maxdiff :
  marker_id aid ascf apos → marker_id bid bscf bpos →
  check_markers (aid :: ageno) (bid :: bgeno) maxdiff =
  if negb (String.eqb ascf bscf) then ok (END, None)
  else if int_le_float (Z.of_nat (hamming_distance ageno bgeno "-"))
            (float_mul (float_of_int (Z.of_nat (length ageno))) maxdiff)
       then ok (OK, None)
       else ok (BREAK, Some (ascf, apos, bpos)).
Proof.
  intros Ha Hb. unfold check_markers. simpl.
  rewrite (split_marker_id _ _ _ Ha), (split_marker_id _ _ _ Hb). done.
Qed.

(** C1 (amended). For marker rows whose ids have the form
    scaffold.position, [check_markers] answers END when the scaffold names
    differ, whatever the genotypes; when the names are equal it answers
    BREAK, with the triple (scaffold, posA, posB), exactly when the number
    of disagreeing genotype positions (missing calls ignored) is greater
    than the binary64 product [len(ageno) * maxdiff], or that product is not
    a number, and OK otherwise. *)
Theorem check_markers_classification
    aid bid ageno bgeno ascf apos bscf bpos (maxdiff : float) :
  marker_id aid ascf apos → marker_id bid bscf bpos →
  let verdict := check_markers (aid :: ageno) (bid :: bgeno) maxdiff in
  let diff := Z.of_nat (hamming_distance ageno bgeno "-") in
  let max_allowed :=
    float_mul (float_of_int (Z.of_nat (length ageno))) maxdiff in
  (ascf ≠ bscf → verdict = ok (END, None)) ∧
  (ascf = bscf →
   (int_exceeds_float diff max_allowed →
    verdict = ok (BREAK, Some (ascf, apos, bpos))) ∧
   (¬ int_exceeds_float diff max_allowed → verdict = ok (OK, None))).
Proof.
  intros Ha Hb verdict diff max_allowed. subst verdict.
  rewrite (check_markers_unfold _ _ _ _ _ _ _ _ _ Ha Hb).
  fold diff. fold max_allowed.
  split.
  - intros Hne. apply String.eqb_neq in Hne. by rewrite Hne.
  - intros ->. rewrite String.eqb_refl. simpl.
    pose proof (int_le_float_false diff max_allowed) as Hthr.
    destruct (int_le_float diff max_allowed) eqn:E.
    + split; [|done]. intros Hex. apply Hthr in Hex. congruence.
    + split; [done|]. intros Hn. exfalso. by apply Hn, Hthr.
Qed.

Lemma check_markers_classification_witness :
  check_markers ["s1.10"; "A"; "B"; "-"] ["s1.20"; "A"; "A"; "A"] default_diff
  = ok (BREAK, Some ("s1", "10", "20")).
Proof.
  refine (proj1 (proj2 (check_markers_classification
            "s1.10" "s1.20" ["A"; "B"; "-"] ["A"; "A"; "A"]
            "s1" "10" "s1" "20" default_diff _ _) eq_refl) _).
  - repeat split.
  - repeat split.
  - reflexivity.
Defined.

(** C1, as stated, fails at the threshold.  With 3 disagreements in 20
    calls and [maxdiff = 0.15] the fraction 3/20 exceeds the number that
    [maxdiff] stands for, yet the answer is OK, the product [20 * 0.15]
    being rounded to 3.  With 29 disagreements in 50 calls and
    [maxdiff = 0.58] the answer is BREAK, the product [50 * 0.58] being
    rounded below 29, although the fraction exceeds neither the decimal 0.58
    nor, computed as the binary64 quotient [29 / 50], the threshold. *)
Lemma check_markers_threshold_rounding :
  (check_markers calls20_a calls20_b (float_ratio 15 100) = ok (OK, None) ∧
   (float_Q (float_ratio 15 100)
    < mismatch_fraction (tail calls20_a) (tail calls20_b))%Q) ∧
  (check_markers calls50_a calls50_b (float_ratio 58 100)
   = ok (BREAK, Some ("s1", "10", "20")) ∧
   ¬ (58 # 100 < mismatch_fraction (tail calls50_a) (tail calls50_b))%Q ∧
   float_div (float_of_int 29) (float_of_int 50) = float_ratio 58 100).
Proof.
  split; [split; [reflexivity|reflexivity]|].
  split; [reflexivity|]. split; [|reflexivity]. discriminate.
Qed.

(** ** The singleton filter of [mapbreaks] *)

Lemma check_markers_total a b diff :
  marker_row a → marker_row b →
  ∃ lbl rr, check_markers a b diff = ok (lbl, rr) ∧
            (lbl = BREAK → is_Some rr).
Proof.
  intros (aid & ageno & ascf & apos & -> & Ha)
         (bid & bgeno & bscf & bpos & -> & Hb).
  rewrite (check_markers_unfold _ _ _ _ _ _ _ _ _ Ha Hb).
  destruct (negb _); [by eexists _, _|].
  destruct (int_le_float _ _); by eexists _, _.
Qed.

Lemma singleton_body_ok data diff good n i st' :
  singleton_body data diff (good, n) i = ok st' →
  ∃ a, data !! i = Some a ∧
       st' = if singleton data diff i then (good, S n)
             else (good ++ [a], n).
Proof.
  unfold singleton_body, singleton, classified_break, index.
  destruct (data !! i) as [a|]; [|done]. simpl.
  destruct (data !! (i - 1)) as [p|]; [|done]. simpl.
  destruct (check_markers p a diff) as [e|[ll lrr]]; [done|]. simpl.
  destruct (data !! (i + 1)) as [q|]; [|done]. simpl.
  destruct (check_markers a q diff) as [e|[rl rrr]]; [done|]. simpl.
  intros H. exists a. split; [done|].
  destruct ll, rl; simpl in *; congruence.
Qed.

Lemma singleton_loop data diff positions :
  ∀ good0 n0 good n,
    for_each (singleton_body data diff) positions (good0, n0) = ok (good, n) →
    good = good0 ++
           rows_at data
             (filter (fun i => singleton data diff i = false) positions).
Proof.
  induction positions as [|i positions IH]; intros good0 n0 good n;
    cbn [for_each].
  - intros [= <- <-]. by rewrite app_nil_r.
  - destruct (singleton_body data diff (good0, n0) i) as [e|st'] eqn:E;
      simpl; [done|].
    apply singleton_body_ok in E as (a & Ha & ->).
    rewrite filter_cons.
    destruct (singleton data diff i) eqn:Es; intros H; apply IH in H.
    + by rewrite decide_False.
    + rewrite decide_True by done. unfold rows_at in *. simpl.
      rewrite Ha. by rewrite <- app_assoc in H.
Qed.

Lemma remove_singletons_retained data diff good n :
  remove_singletons data diff = ok (good, n) →
  good = rows_at data (retained_positions data diff).
Proof. intros H. by apply singleton_loop in H. Qed.

Lemma retained_interior data diff i :
  i ∈ retained_positions data diff →
  (1 ≤ i)%nat ∧ (i + 1 < length data)%nat ∧ singleton data diff i = false.
Proof.
  unfold retained_positions, interior_range.
  rewrite list_elem_of_filter, elem_of_seq.
  intros [Hs Hr]. repeat split; [lia | lia | done].
Qed.

Lemma for_each_total {A S} (body : S → A → result S) (xs : list A) :
  (∀ st x, x ∈ xs → ∃ st', body st x = ok st') →
  ∀ st, ∃ st', for_each body xs st = ok st'.
Proof.
  induction xs as [|x xs IH]; intros Hbody st; simpl.
  - by eexists.
  - destruct (Hbody st x) as [st' ->]; [left|]. simpl.
    apply IH. intros st0 y Hy. apply Hbody. by right.
Qed.

Lemma singleton_body_total data diff st i :
  Forall marker_row data →
  (1 ≤ i)%nat → (i + 1 < length data)%nat →
  ∃ st', singleton_body data diff st i = ok st'.
Proof.
  intros Hrows Hlo Hhi. destruct st as [good n].
  unfold singleton_body, index.
  destruct (lookup_lt_is_Some_2 data i) as [a Ha]; [lia|].
  destruct (lookup_lt_is_Some_2 data (i - 1)) as [p Hp]; [lia|].
  destruct (lookup_lt_is_Some_2 data (i + 1)) as [q Hq]; [lia|].
  rewrite Ha, Hp, Hq. simpl.
  rewrite Forall_lookup in Hrows.
  destruct (check_markers_total p a diff) as (ll & lrr & -> & _); eauto.
  destruct (check_markers_total a q diff) as (rl & rrr & -> & _); eauto.
  simpl. destruct (_ && _); by eexists.
Qed.

Lemma remove_singletons_total data diff :
  Forall marker_row data →
  ∃ good n, remove_singletons data diff = ok (good, n).
Proof.
  intros Hrows.
  destruct (for_each_total (singleton_body data diff) (interior_range data))
    with (st := ([] : list row, 0%nat)) as [[good n] H].
  - intros st i Hi. unfold interior_range in Hi. apply elem_of_seq in Hi.
    apply singleton_body_total; [done|lia..].
  - by exists good, n.
Qed.

Lemma rows_at_Forall2 (data : list row) positions :
  Forall (fun i => (i < length data)%nat) positions →
  Forall2 (fun i a => data !! i = Some a) positions (rows_at data positions).
Proof.
  unfold rows_at. induction 1 as [|i positions Hi _ IH]; simpl; [constructor|].
  destruct (lookup_lt_is_Some_2 data i Hi) as [a Ha].
  rewrite Ha. by constructor.
Qed.

Lemma retained_rows data diff :
  Forall2 (fun i a => data !! i = Some a)
    (retained_positions data diff)
    (rows_at data (retained_positions data diff)).
Proof.
  apply rows_at_Forall2, Forall_forall. intros i Hi.
  apply retained_interior in Hi. lia.
Qed.

Lemma rows_at_elem (data : list row) positions a :
  a ∈ rows_at data positions → a ∈ data.
Proof.
  unfold rows_at. rewrite list_elem_of_omap. intros (i & _ & Hi).
  by eapply list_elem_of_lookup_2.
Qed.

Lemma pairwise_elem {A} (l : list A) a b :
  (a, b) ∈ pairwise l → a ∈ l ∧ b ∈ l.
Proof.
  induction l as [|x [|y l] IH]; simpl; [by intros ?%elem_of_nil..|].
  intros [[= -> ->]|H]%elem_of_cons.
  - split; [left | right; left].
  - destruct (IH H). split; by right.
Qed.

Lemma report_loop diff pairs :
  Forall (fun ab : row * row => marker_row (fst ab) ∧ marker_row (snd ab))
         pairs →
  ∀ out,
    for_each (report_body diff) pairs out
    = ok (out ++ omap (break_line diff) pairs).
Proof.
  induction 1 as [|[a b] pairs [Ha Hb] _ IH]; intros out; cbn [for_each].
  - by rewrite app_nil_r.
  - unfold report_body at 1. simpl in Ha, Hb. cbn [omap list_omap].
    unfold break_line at 1. simpl.
    destruct (check_markers_total a b diff Ha Hb) as (lbl & rr & -> & Hrr).
    simpl. destruct lbl; simpl; try apply IH.
    destruct Hrr as [[[scf apos] bpos] ->]; [done|]. cbn [rbind].
    rewrite IH. by rewrite <- app_assoc.
Qed.

Lemma mapbreaks_total data diff good n :
  Forall marker_row data →
  remove_singletons data diff = ok (good, n) →
  mapbreaks data diff = ok (omap (break_line diff) (pairwise good)).
Proof.
  intros Hrows Hgood. unfold mapbreaks. rewrite Hgood. simpl.
  unfold report_breaks. rewrite report_loop; [done|].
  apply remove_singletons_retained in Hgood as ->.
  rewrite Forall_forall in Hrows.
  apply Forall_forall. intros [a b] [Ha Hb]%pairwise_elem.
  split; by eapply Hrows, rows_at_elem.
Qed.

(** C4. In [mapbreaks], an interior marker whose comparisons with its left
    and with its right neighbour are both BREAK is not appended to the
    retained sequence [good]; the lines printed are those of the
    consecutive pairs of [good] that are classified BREAK. *)
Theorem mapbreaks_drops_singletons data diff :
  Forall marker_row data →
  ∃ good n,
    remove_singletons data diff = ok (good, n) ∧
    Forall2 (fun i a => data !! i = Some a)
            (retained_positions data diff) good ∧
    (∀ i, (1 ≤ i)%nat → (i + 1 < length data)%nat →
          classified_break data diff (i - 1) i = true →
          classified_break data diff i (i + 1) = true →
          (i ∉ retained_positions data diff) ∧
          ∀ g k, singleton_body data diff (g, k) i = ok (g, S k)) ∧
    mapbreaks data diff = ok (omap (break_line diff) (pairwise good)).
Proof.
  intros Hrows.
  destruct (remove_singletons_total data diff Hrows) as (good & n & Hgood).
  exists good, n. split; [done|].
  pose proof (remove_singletons_retained _ _ _ _ Hgood) as ->.
  split; [apply retained_rows|]. split; [|by eapply mapbreaks_total].
  intros i Hlo Hhi Hl Hr.
  assert (Hs : singleton data diff i = true).
  { unfold singleton. by rewrite Hl, Hr. }
  split.
  - intros (_ & _ & Hk)%retained_interior. congruence.
  - intros g k.
    destruct (singleton_body_total data diff (g, k) i Hrows Hlo Hhi)
      as [st' Hst].
    rewrite Hst. apply singleton_body_ok in Hst as (a & _ & ->).
    by rewrite Hs.
Qed.

Lemma markers_example_rows : Forall marker_row markers_example.
Proof.
  unfold markers_example.
  apply Forall_cons_2;
    [by exists "s1.10", ["A"; "A"], "s1", "10"|].
  apply Forall_cons_2;
    [by exists "s1.20", ["A"; "A"], "s1", "20"|].
  apply Forall_cons_2;
    [by exists "s1.30", ["B"; "B"], "s1", "30"|].
  apply Forall_cons_2;
    [by exists "s1.40", ["A"; "A"], "s1", "40"|].
  apply Forall_cons_2;
    [by exists "s1.50", ["A"; "A"], "s1", "50"|].
  apply Forall_cons_2;
    [by exists "s1.60", ["C"; "C"], "s1", "60"|].
  apply Forall_cons_2;
    [by exists "s1.70", ["C"; "C"], "s1", "70"|].
  apply Forall_nil_2.
Defined.

Lemma mapbreaks_drops_singletons_witness :
  ∃ good n,
    remove_singletons markers_example default_diff = ok (good, n) ∧
    Forall2 (fun i a => markers_example !! i = Some a)
            (retained_positions markers_example default_diff) good ∧
    (∀ i, (1 ≤ i)%nat → (i + 1 < length markers_example)%nat →
          classified_break markers_example default_diff (i - 1) i = true →
          classified_break markers_example default_diff i (i + 1) = true →
          (i ∉ retained_positions markers_example default_diff) ∧
          ∀ g k, singleton_body markers_example default_diff (g, k) i
                 = ok (g, S k)) ∧
    mapbreaks markers_example default_diff
    = ok (omap (break_line default_diff) (pairwise good)).
Proof.
  apply (mapbreaks_drops_singletons markers_example default_diff).
  exact markers_example_rows.
Defined.

(** C10. In [mapbreaks], the first and the last row of the parsed data are
    never retained, whatever their genotypes and classifications: the
    retained sequence [good] holds rows at interior positions only, and
    the lines printed come from its consecutive pairs. *)
Theorem mapbreaks_retains_interior_only data diff :
  Forall marker_row data →
  ∃ good n,
    remove_singletons data diff = ok (good, n) ∧
    Forall2 (fun i a => data !! i = Some a)
            (retained_positions data diff) good ∧
    (0%nat ∉ retained_positions data diff) ∧
    ((length data - 1)%nat ∉ retained_positions data diff) ∧
    (∀ i, i ∈ retained_positions data diff →
          (1 ≤ i)%nat ∧ (i + 1 < length data)%nat) ∧
    mapbreaks data diff = ok (omap (break_line diff) (pairwise good)).
Proof.
  intros Hrows.
  destruct (remove_singletons_total data diff Hrows) as (good & n & Hgood).
  exists good, n. split; [done|].
  pose proof (remove_singletons_retained _ _ _ _ Hgood) as ->.
  split; [apply retained_rows|].
  split; [intros ?%retained_interior; lia|].
  split; [intros ?%retained_interior; lia|].
  split; [intros i ?%retained_interior; lia|].
  by eapply mapbreaks_total.
Qed.

Lemma mapbreaks_retains_interior_only_witness :
  ∃ good n,
    remove_singletons markers_example default_diff = ok (good, n) ∧
    Forall2 (fun i a => markers_example !! i = Some a)
            (retained_positions markers_example default_diff) good ∧
    (0%nat ∉ retained_positions markers_example default_diff) ∧
    ((length markers_example - 1)%nat
       ∉ retained_positions markers_example default_diff) ∧
    (∀ i, i ∈ retained_positions markers_example default_diff →
          (1 ≤ i)%nat ∧ (i + 1 < length markers_example)%nat) ∧
    mapbreaks markers_example default_diff
    = ok (omap (break_line default_diff) (pairwise good)).
Proof.
  apply (mapbreaks_retains_interior_only markers_example default_diff).
  exact markers_example_rows.
Defined.


(** ** The order in which [max] compares the gaps of [refine] *)

Lemma cmp_le_lt {A} (cmp : A → A → comparison) x y z :
  total_order cmp → cmp x y ≠ Gt → cmp y z = Lt → cmp x z = Lt.
Proof.
  intros Hord Hxy Hyz. destruct (cmp x y) eqn:E; [| |done].
  - apply (cmp_eq _ Hord) in E as ->. done.
  - by eapply (cmp_trans _ Hord).
Qed.

Lemma Z_total_order : total_order Z.compare.
Proof.
  split.
  - apply Z.compare_eq_iff.
  - intros x y H. apply Z.compare_gt_iff in H. by apply Z.compare_lt_iff.
  - intros x y z. rewrite !Z.compare_lt_iff. lia.
Qed.

Lemma str_total_order : total_order str_cmp.
Proof.
  unfold str_cmp. split.
  - intros x y. destruct (String_as_OT.compare_spec x y) as [H|H|H];
      split; try done.
    + intros ->. by apply (irreflexivity String_as_OT.lt) in H.
    + intros ->. by apply (irreflexivity String_as_OT.lt) in H.
  - intros x y H. destruct (String_as_OT.compare_spec x y); done.
  - intros x y z. apply (transitivity (R := String_as_OT.lt)).
Qed.

Lemma row_total_order : total_order row_cmp.
Proof.
  pose proof str_total_order as Hs. split.
  - induction x as [|a x IH]; intros [|b y]; simpl; try done.
    destruct (str_cmp a b) eqn:E.
    + apply (cmp_eq _ Hs) in E as ->. rewrite IH. split; congruence.
    + split; [done|]. intros [= -> _].
      assert (str_cmp b b = Eq) by by apply (cmp_eq _ Hs). congruence.
    + split; [done|]. intros [= -> _].
      assert (str_cmp b b = Eq) by by apply (cmp_eq _ Hs). congruence.
  - induction x as [|a x IH]; intros [|b y]; simpl; try done.
    destruct (str_cmp a b) eqn:E.
    + apply (cmp_eq _ Hs) in E as ->.
      assert (str_cmp b b = Eq) as -> by by apply (cmp_eq _ Hs).
      apply IH.
    + done.
    + intros _. by rewrite (cmp_gt _ Hs _ _ E).
  - induction x as [|a x IH]; intros [|b y] [|c z]; simpl; try done.
    destruct (str_cmp a b) eqn:Eab; [| |done].
    + apply (cmp_eq _ Hs) in Eab as ->.
      destruct (str_cmp b c); [apply IH|done..].
    + intros _. destruct (str_cmp b c) eqn:Ebc; [| |done].
      * apply (cmp_eq _ Hs) in Ebc as ->. by rewrite Eab.
      * by rewrite (cmp_trans _ Hs _ _ _ Eab Ebc).
Qed.

Lemma sized_total_order : total_order sized_cmp.
Proof.
  pose proof Z_total_order as Hz. pose proof row_total_order as Hr.
  unfold sized_cmp. split.
  - intros [m x] [n y]; simpl. destruct (Z.compare m n) eqn:E.
    + apply (cmp_eq _ Hz) in E as ->. rewrite (cmp_eq _ Hr).
      split; congruence.
    + split; [done|]. intros [= -> _]. rewrite Z.compare_refl in E. done.
    + split; [done|]. intros [= -> _]. rewrite Z.compare_refl in E. done.
  - intros [m x] [n y]; simpl. destruct (Z.compare m n) eqn:E.
    + apply (cmp_eq _ Hz) in E as ->. rewrite Z.compare_refl.
      apply (cmp_gt _ Hr).
    + done.
    + intros _. by rewrite (cmp_gt _ Hz _ _ E).
  - intros [m x] [n y] [k z]; simpl.
    destruct (Z.compare m n) eqn:Emn; [| |done].
    + apply (cmp_eq _ Hz) in Emn as ->.
      destruct (Z.compare n k); [apply (cmp_trans _ Hr)|done..].
    + intros _. destruct (Z.compare n k) eqn:Enk; [| |done].
      * apply (cmp_eq _ Hz) in Enk as ->. by rewrite Emn.
      * by rewrite (cmp_trans _ Hz _ _ _ Emn Enk).
Qed.

Lemma cmp_le_trans {A} (cmp : A → A → comparison) x y z :
  total_order cmp → cmp x y ≠ Gt → cmp y z ≠ Gt → cmp x z ≠ Gt.
Proof.
  intros Hord Hxy Hyz. destruct (cmp y z) eqn:E; [| |done].
  - apply (cmp_eq _ Hord) in E as <-. done.
  - by rewrite (cmp_le_lt cmp x y z Hord Hxy E).
Qed.

(** [max] returns an item of the list that no item exceeds. *)
Lemma max_scan {A} (cmp : A → A → comparison) (l : list A) :
  total_order cmp →
  ∀ x,
    let best :=
      fold_left (fun best item => if is_gt cmp item best then item else best)
                l x in
    best ∈ x :: l ∧ cmp x best ≠ Gt ∧ ∀ y, y ∈ l → cmp y best ≠ Gt.
Proof.
  intros Hord.
  induction l as [|item l IH]; intros x; cbn [fold_left].
  - split; [left|]. split; [|by intros y ?%elem_of_nil].
    assert (cmp x x = Eq) as -> by by apply (cmp_eq _ Hord). done.
  - assert (Hitem : cmp item item = Eq) by by apply (cmp_eq _ Hord).
    destruct (is_gt cmp item x) eqn:G;
      destruct (IH (if is_gt cmp item x then item else x))
        as (Hin & Hfirst & Hrest); rewrite G in *; unfold is_gt in G.
    + assert (E : cmp item x = Gt) by (destruct (cmp item x); done).
      split; [right; exact Hin|]. split.
      * apply (cmp_le_trans cmp _ item _ Hord); [|done].
        rewrite (cmp_gt _ Hord _ _ E). done.
      * intros y [->|Hy]%elem_of_cons; [done | by apply Hrest].
    + assert (E : cmp item x ≠ Gt) by (destruct (cmp item x); done).
      split.
      { apply elem_of_cons in Hin as [->|Hin]; [left | right; by right]. }
      split; [done|].
      intros y [->|Hy]%elem_of_cons; [|by apply Hrest].
      by apply (cmp_le_trans cmp _ x _ Hord).
Qed.

(** ** The gap selected by [refine] *)

Lemma comprehension_Forall2 {A B} (f : A → result B) l ys :
  comprehension f l = ok ys ↔ Forall2 (fun x y => f x = ok y) l ys.
Proof.
  revert ys. induction l as [|x l IH]; intros ys; simpl.
  - split; [intros [= <-]; constructor | by inversion 1].
  - destruct (f x) as [e|y] eqn:E; simpl.
    + split; [done|]. inversion 1; congruence.
    + destruct (comprehension f l) as [e|ys'] eqn:El; simpl.
      * split; [done|]. inversion 1 as [|? y' ? ys'' Hy Hl]; subst.
        apply IH in Hl. done.
      * split.
        -- intros [= <-]. constructor; [done | by apply IH].
        -- inversion 1 as [|? y' ? ys'' Hy Hl]; subst.
           apply IH in Hl. congruence.
Qed.

Lemma sized_row int x n y : sized int x = ok (n, y) → y = x.
Proof.
  unfold sized. destruct (index_last x); simpl; [done|].
  destruct (int _); simpl; congruence.
Qed.




(** ** [merge_ranges] *)

Lemma min_scan (l : list Z) :
  ∀ x,
    let m :=
      fold_left (fun best item => if (item <? best)%Z then item else best)
                l x in
    m ∈ x :: l ∧ ∀ y, y ∈ x :: l → (m ≤ y)%Z.
Proof.
  induction l as [|item l IH]; intros x; cbn [fold_left].
  - split; [left|]. intros y ->%list_elem_of_singleton. lia.
  - destruct (IH (if (item <? x)%Z then item else x)) as [Hin Hmin].
    destruct (Z.ltb_spec item x) as [Hlt|Hge].
    + split; [by right|].
      intros y [->|Hy]%elem_of_cons; [|by apply Hmin].
      assert (fold_left
                (fun best item0 => if (item0 <? best)%Z then item0 else best)
                l item ≤ item)%Z by (apply Hmin; left).
      lia.
    + split.
      { apply elem_of_cons in Hin as [->|Hin]; [left | right; by right]. }
      intros y [->|[->|Hy]%elem_of_cons]%elem_of_cons.
      * apply Hmin. left.
      * assert (fold_left
                  (fun best item0 => if (item0 <? best)%Z then item0 else best)
                  l x ≤ x)%Z by (apply Hmin; left).
        lia.
      * apply Hmin. by right.
Qed.

Lemma max_scan_Z (l : list Z) :
  ∀ x,
    let m :=
      fold_left (fun best item => if (item >? best)%Z then item else best)
                l x in
    m ∈ x :: l ∧ ∀ y, y ∈ x :: l → (y ≤ m)%Z.
Proof.
  intros x.
  destruct (max_scan Z.compare l Z_total_order x) as (Hin & Hfirst & Hrest).
  split; [exact Hin|].
  intros y [->|Hy]%elem_of_cons.
  - by apply Z.compare_le_iff.
  - by apply Z.compare_le_iff, Hrest.
Qed.

Lemma shared_seqid_set (mr : list Range.t) c :
  mr ≠ [] → (∀ r, r ∈ mr → Range.seqid r = c) →
  (list_to_set (map Range.seqid mr) : gset string) = {[c]}.
Proof.
  induction mr as [|r mr IH]; [done|]. intros _ Hall. simpl.
  rewrite (Hall r) by left.
  destruct mr as [|r' mr].
  - simpl. by rewrite union_empty_r_L.
  - rewrite IH; [apply (idemp_L (∪)) | done |].
    intros r0 Hr0. apply Hall. by right.
Qed.

(** What [merge_ranges] returns for a group that shares one sequence id. *)
Lemma merge_ranges_shared range_parse beds mr c :
  comprehension range_parse (map BedLine.accn beds) = ok mr →
  mr ≠ [] → (∀ r, r ∈ mr → Range.seqid r = c) →
  ∃ ms me,
    merge_ranges range_parse beds
    = ok (Some (c, ms, me,
                if (neg_count beds >? pos_count beds)%Z then "-" else "+"),
          []) ∧
    ms ∈ map Range.start mr ∧ (∀ r, r ∈ mr → (ms ≤ Range.start r)%Z) ∧
    me ∈ map Range.end_ mr ∧ (∀ r, r ∈ mr → (Range.end_ r ≤ me)%Z).
Proof.
  intros Hmr Hne Hall. unfold merge_ranges. rewrite Hmr. cbn [rbind].
  rewrite (shared_seqid_set mr c Hne Hall).
  rewrite size_singleton, elements_singleton. simpl.
  destruct mr as [|r0 mr]; [done|]. cbn [map py_min py_max rbind].
  pose proof (min_scan (map Range.start mr) (Range.start r0)) as [Hmi Hmin].
  pose proof (max_scan_Z (map Range.end_ mr) (Range.end_ r0)) as [Hma Hmax].
  eexists _, _. split; [reflexivity|].
  split; [exact Hmi|]. split.
  { intros r Hr. apply Hmin. change (Range.start r ∈ map Range.start (r0 :: mr)).
    by apply list_elem_of_fmap_2. }
  split; [exact Hma|].
  intros r Hr. apply Hmax. change (Range.end_ r ∈ map Range.end_ (r0 :: mr)).
  by apply list_elem_of_fmap_2.
Qed.

(** C2 (amended). For a group whose parsed accession ranges share one
    sequence id, [merge_ranges] returns that id, the minimum start and the
    maximum end over the parsed ranges, and the strand "-" when the records
    on the negative strand strictly outnumber the others, "+" otherwise; an
    exact tie gives "+". *)
Theorem merge_ranges_majority range_parse beds mr c :
  comprehension range_parse (map BedLine.accn beds) = ok mr →
  mr ≠ [] → (∀ r, r ∈ mr → Range.seqid r = c) →
  ∃ ms me strand,
    merge_ranges range_parse beds = ok (Some (c, ms, me, strand), []) ∧
    (ms ∈ map Range.start mr ∧ ∀ r, r ∈ mr → (ms ≤ Range.start r)%Z) ∧
    (me ∈ map Range.end_ mr ∧ ∀ r, r ∈ mr → (Range.end_ r ≤ me)%Z) ∧
    ((pos_count beds < neg_count beds)%Z → strand = "-") ∧
    ((neg_count beds < pos_count beds)%Z → strand = "+") ∧
    (neg_count beds = pos_count beds → strand = "+").
Proof.
  intros Hmr Hne Hall.
  destruct (merge_ranges_shared range_parse beds mr c Hmr Hne Hall)
    as (ms & me & Hm & Hms & Hmin & Hme & Hmax).
  exists ms, me, (if (neg_count beds >? pos_count beds)%Z then "-" else "+").
  split; [exact Hm|]. split; [done|]. split; [done|].
  destruct (Z.gtb_spec (neg_count beds) (pos_count beds));
    repeat split; intros; (done || lia).
Qed.

Lemma merge_ranges_majority_witness :
  ∃ ms me strand,
    merge_ranges range_parse_accn [bed_minus; bed_plus; bed_minus]
    = ok (Some ("Scaffold1", ms, me, strand), []) ∧
    (ms ∈ map Range.start
            [Range.mk "Scaffold1" 150 300; Range.mk "Scaffold1" 120 250;
             Range.mk "Scaffold1" 150 300] ∧
     ∀ r, r ∈ [Range.mk "Scaffold1" 150 300; Range.mk "Scaffold1" 120 250;
               Range.mk "Scaffold1" 150 300] → (ms ≤ Range.start r)%Z) ∧
    (me ∈ map Range.end_
            [Range.mk "Scaffold1" 150 300; Range.mk "Scaffold1" 120 250;
             Range.mk "Scaffold1" 150 300] ∧
     ∀ r, r ∈ [Range.mk "Scaffold1" 150 300; Range.mk "Scaffold1" 120 250;
               Range.mk "Scaffold1" 150 300] → (Range.end_ r ≤ me)%Z) ∧
    ((pos_count [bed_minus; bed_plus; bed_minus]
      < neg_count [bed_minus; bed_plus; bed_minus])%Z → strand = "-") ∧
    ((neg_count [bed_minus; bed_plus; bed_minus]
      < pos_count [bed_minus; bed_plus; bed_minus])%Z → strand = "+") ∧
    (neg_count [bed_minus; bed_plus; bed_minus]
     = pos_count [bed_minus; bed_plus; bed_minus] → strand = "+").
Proof.
  apply (merge_ranges_majority range_parse_accn
           [bed_minus; bed_plus; bed_minus]).
  - reflexivity.
  - discriminate.
  - intros r Hr. repeat (apply elem_of_cons in Hr as [->|Hr]; [reflexivity|]).
    by apply elem_of_nil in Hr.
Defined.

(** C2, as stated, fails: one record on each strand is an exact tie, and the
    strand returned is "+", not "-". *)
Lemma merge_ranges_tie_positive :
  neg_count [bed_minus; bed_plus] = pos_count [bed_minus; bed_plus] ∧
  merge_ranges range_parse_accn [bed_minus; bed_plus]
  = ok (Some ("Scaffold1", 120%Z, 300%Z, "+"), []).
Proof. split; reflexivity. Qed.

(** C9 (amended). For a group of exactly one BED record, [merge_ranges]
    returns the sequence id, start and end of the range parsed from the
    record's accession, and the strand "-" if the record's strand is "-",
    "+" otherwise. *)
Theorem merge_ranges_single range_parse (b : BedLine.t) (r : Range.t) :
  range_parse (BedLine.accn b) = ok r →
  merge_ranges range_parse [b]
  = ok (Some (Range.seqid r, Range.start r, Range.end_ r,
              if String.eqb (BedLine.strand b) "-" then "-" else "+"),
        []).
Proof.
  intros Hr.
  destruct (merge_ranges_shared range_parse [b] [r] (Range.seqid r))
    as (ms & me & Hm & Hms & _ & Hme & _).
  - simpl. by rewrite Hr.
  - done.
  - by intros r0 ->%list_elem_of_singleton.
  - apply list_elem_of_singleton in Hms as ->.
    apply list_elem_of_singleton in Hme as ->.
    rewrite Hm. unfold pos_count, neg_count. rewrite filter_cons, filter_nil.
    destruct (String.eqb_spec (BedLine.strand b) "-") as [E|E].
    + by rewrite decide_True.
    + by rewrite decide_False.
Qed.

Lemma merge_ranges_single_witness :
  merge_ranges range_parse_accn [bed_minus]
  = ok (Some ("Scaffold1", 150%Z, 300%Z, "-"), []).
Proof.
  apply (merge_ranges_single range_parse_accn bed_minus
           (Range.mk "Scaffold1" 150 300)).
  reflexivity.
Defined.

(** C9, as stated, fails: the record's own bounds are 5 and 50 and its
    strand is ".", while the result carries the bounds 100 and 200 of its
    accession and the strand "+". *)
Lemma merge_ranges_single_not_own :
  merge_ranges range_parse_accn [bed_unstranded]
  = ok (Some ("Scaffold1", 100%Z, 200%Z, "+"), []) ∧
  (BedLine.start bed_unstranded, BedLine.end_ bed_unstranded,
   BedLine.strand bed_unstranded) = (5%Z, 50%Z, ".").
Proof. split; reflexivity. Qed.

(** ** The condensing loop of [prepare] *)

Lemma for_groups_invariant {A K S} `{EqDecision K} (key : A → result K)
    (body : S → K * list A → result S) (P : S → Prop) :
  (∀ st k g st', group_of key k g → P st → body st (k, g) = ok st' → P st') →
  ∀ l cur st st',
    match cur with
    | None => True
    | Some (k, g) => group_of key k g
    end →
    P st → for_groups key body l cur st = ok st' → P st'.
Proof.
  intros Hbody. induction l as [|x l IH]; intros cur st st' Hcur HP;
    cbn [for_groups].
  - destruct cur as [[k g]|]; [by apply Hbody | by intros [= <-]].
  - destruct (key x) as [e|kx] eqn:Ex; cbn [rbind]; [done|].
    assert (Hone : group_of key kx [x]).
    { split; [done|]. by intros y ->%list_elem_of_singleton. }
    destruct cur as [[k g]|]; [|by apply IH].
    case_bool_decide as Ek.
    + apply IH; [|done]. subst kx. destruct Hcur as [Hne Hg]. split.
      * by destruct g.
      * intros y [Hy | ->%list_elem_of_singleton]%elem_of_app; auto.
    + destruct (body st (k, g)) as [e|st1] eqn:Eb; cbn [rbind]; [done|].
      apply IH; [exact Hone|]. exact (Hbody _ _ _ _ Hcur HP Eb).
Qed.

Lemma condense_key_seqid range_parse x f c :
  condense_key range_parse x = ok (f, c) →
  ∃ r, range_parse (BedLine.accn x) = ok r ∧ Range.seqid r = c.
Proof.
  unfold condense_key. destruct (range_parse _) as [e|r]; simpl; [done|].
  intros [= _ <-]. by exists r.
Qed.

(** In [prepare] every group has one parsed sequence id. *)
Lemma condense_group_shared range_parse k g :
  group_of (condense_key range_parse) k g →
  ∃ mr, comprehension range_parse (map BedLine.accn g) = ok mr ∧
        mr ≠ [] ∧ ∀ r, r ∈ mr → Range.seqid r = snd k.
Proof.
  intros [Hne Hg]. destruct k as [f c]. simpl.
  assert (∃ mr, Forall2 (fun a r => range_parse a = ok r)
                        (map BedLine.accn g) mr ∧
                ∀ r, r ∈ mr → Range.seqid r = c) as (mr & HF & Hall).
  { clear Hne. induction g as [|x g IH]; [exists []; split; [constructor|]|].
    - by intros r ?%elem_of_nil.
    - destruct (condense_key_seqid range_parse x f c) as (r & Hr & Hc);
        [apply Hg; left|].
      destruct IH as (mr & HF & Hall); [intros y Hy; apply Hg; by right|].
      exists (r :: mr). split; [by constructor|].
      intros r0 [->|Hr0]%elem_of_cons; auto. }
  exists mr. split; [by apply comprehension_Forall2|]. split; [|done].
  destruct g; [done|]. by inversion HF.
Qed.

Lemma condense_body_ok range_parse sizes pf st k g st' :
  group_of (condense_key range_parse) k g →
  condense_body range_parse sizes pf st (k, g) = ok st' →
  ∃ line, bed_fw st' = bed_fw st ++ [line] ∧ clipped_line sizes line ∧
          log st' = log st.
Proof.
  intros Hg. destruct (condense_group_shared _ _ _ Hg) as (mr & Hmr & Hne & Hall).
  destruct (merge_ranges_shared range_parse g mr (snd k) Hmr Hne Hall)
    as (ms & me & Hm & _).
  unfold condense_body. cbn [snd]. rewrite Hm. cbn [rbind].
  destruct (sizes !! snd k) as [size|] eqn:Es; [|done].
  intros [= <-]. simpl. eexists. split; [reflexivity|].
  split; [|by rewrite app_nil_r].
  exists (snd k), ms, me, size. split; [done|]. simpl.
  split; [done|]. lia.
Qed.

Lemma condense_invariant range_parse sizes pf bed st :
  condense range_parse sizes pf bed = ok st →
  Forall (clipped_line sizes) (bed_fw st) ∧ log st = [].
Proof.
  unfold condense.
  apply (for_groups_invariant (condense_key range_parse)
           (condense_body range_parse sizes pf)
           (fun st => Forall (clipped_line sizes) (bed_fw st) ∧ log st = []));
    [|done|by split].
  intros st0 k g st1 Hg [Hlines Hlog] Hbody.
  apply (condense_body_ok _ _ _ _ _ _ _ Hg) in Hbody
    as (line & -> & Hline & ->).
  split; [|done]. apply Forall_app. split; [done|]. by constructor.
Qed.

(** C6. Every interval that [prepare] writes to the patchers BED file is a
    merged interval expanded by the flank of 10,000 on both sides and
    clipped: its start is at least 0 and its end at most the length of the
    sequence it lies on. *)
Theorem prepare_flank_clipped range_parse bb sizes pf bed st :
  prepare range_parse bb sizes pf bed = ok st →
  Flank = 10000%Z ∧ Forall (clipped_line sizes) (bed_fw st).
Proof.
  intros H. split; [done|]. by apply condense_invariant in H as [? _].
Qed.

Lemma prepare_flank_clipped_witness :
  Flank = 10000%Z ∧
  Forall (clipped_line sizes_example)
    [join tab ["Scaffold1"; "0"; "5000"];
     join tab ["Scaffold2"; "0"; "10300"]].
Proof.
  apply (prepare_flank_clipped range_parse_accn "Scaffold" sizes_example "om"
           [bed_unstranded; bed_minus; bed_other]
           {| bed_fw := [join tab ["Scaffold1"; "0"; "5000"];
                         join tab ["Scaffold2"; "0"; "10300"]];
              tpf_fw := [join tab ["telomere"; "om"; "na"];
                         join tab ["Scaffold1:0-5000"; "om"; "+"];
                         join tab ["Scaffold2:0-10300"; "om"; "+"]];
              log := [] |}).
  reflexivity.
Defined.



(** C8: the grouping key of the condensing loop of [prepare] does not hold
    the side preference.  With the backbone prefix [chr1:1], two consecutive
    records of which one is on the backbone side and the other is not have
    the same key and are merged into one interval. *)
Theorem condense_key_ignores_side :
  is_bb "chr1:1" bed_inside = true ∧
  is_bb "chr1:1" bed_outside = false ∧
  condense_key range_parse_accn bed_inside
  = condense_key range_parse_accn bed_outside ∧
  prepare range_parse_accn "chr1:1" sizes_example "om"
    [bed_inside; bed_outside]
  = ok {| bed_fw := [join tab ["chr1"; "0"; "10300"]];
          tpf_fw := [join tab ["telomere"; "om"; "na"];
                     join tab ["chr1:0-10300"; "om"; "+"]];
          log := [] |}.
Proof. repeat split. Qed.

(** ** Reuse of certificate lines *)

Lemma write_line_ok st tag a aphase aid ov st' :
  write_line st tag a aphase aid ov = ok st' →
  (∃ line, fw st' = fw st ++ [line]) ∧
  overlap_calls st' = overlap_calls st.
Proof.
  unfold write_line. destruct (bphase st); [|done].
  intros [= <-]. simpl. split; [by eexists | done].
Qed.

(** A completed iteration of the inner loop writes one line, the stored
    one if the key of the pair is in the table, and calls [overlap] exactly
    when the neighbour is a clone whose key is not in the table. *)
Lemma neighbor_body_trace
    (first_size : string → result (string * Z))
    (overlap : list string → option string)
    (data : gmap (string * string * string) string) (bb : string)
    (a : TPFLine.t) (aphase asize : Z)
    (st : certificate_state) (tag : string) (p : option TPFLine.t)
    (st' : certificate_state) :
  neighbor_body first_size overlap data bb a (TPFLine.component_id a)
    aphase asize st (tag, p) = ok st' →
  ∃ line,
    fw st' = fw st ++ [line] ∧
    reuses_stored data (a, tag, p) line ∧
    overlap_calls st'
    = overlap_calls st ++ option_list (overlap_call_of data (a, tag, p)).
Proof.
  unfold neighbor_body, reuses_stored, stored_line_of, overlap_call_of,
    pair_key.
  destruct p as [p|].
  - destruct (TPFLine.isCloneGap p).
    + intros [[line Hfw] Hov]%write_line_ok. simpl in *. exists line.
      rewrite Hov, app_nil_r. done.
    + destruct (phase first_size bb (TPFLine.component_id p))
        as [e|[bph bsize]]; cbn [rbind]; [done|].
      destruct (data !! (tag, TPFLine.component_id a, TPFLine.component_id p))
        as [line|] eqn:Ek.
      * intros [= <-]. simpl. exists line. rewrite app_nil_r.
        split; [done|]. split; [congruence | done].
      * intros [[line Hfw] Hov]%write_line_ok. simpl in *. exists line.
        by rewrite Hov.
  - intros [[line Hfw] Hov]%write_line_ok. exists line.
    rewrite Hov, app_nil_r. done.
Qed.

Lemma component_body_trace
    (getNorthSouthClone : nat → option TPFLine.t * option TPFLine.t)
    (op_exists : string → bool)
    (first_size : string → result (string * Z))
    (overlap : list string → option string)
    (data : gmap (string * string * string) string) (bb : string)
    (st : certificate_state) (ia : nat * TPFLine.t)
    (st' : certificate_state) :
  component_body getNorthSouthClone op_exists first_size overlap data bb
    st ia = ok st' →
  ∃ lines,
    fw st' = fw st ++ lines ∧
    Forall2 (reuses_stored data) (directions getNorthSouthClone ia) lines ∧
    overlap_calls st'
    = overlap_calls st
      ++ omap (overlap_call_of data) (directions getNorthSouthClone ia).
Proof.
  destruct ia as [i a]. unfold component_body, directions.
  destruct (TPFLine.is_gap a).
  { intros [= <-]. exists []. rewrite !app_nil_r. by repeat split. }
  destruct (negb _); [done|].
  destruct (getNorthSouthClone i) as [north south].
  destruct (phase first_size bb (TPFLine.component_id a))
    as [e|[aphase asize]]; cbn [rbind]; [done|].
  cbn [for_each].
  destruct (neighbor_body _ _ _ _ _ _ _ _ st _) as [e|st1] eqn:E1;
    cbn [rbind]; [done|].
  destruct (neighbor_body _ _ _ _ _ _ _ _ st1 _) as [e|st2] eqn:E2;
    cbn [rbind]; [done|].
  intros [= <-].
  apply neighbor_body_trace in E1 as (l1 & Hfw1 & Hr1 & Hov1).
  apply neighbor_body_trace in E2 as (l2 & Hfw2 & Hr2 & Hov2).
  exists [l1; l2]. split; [|split].
  - rewrite Hfw2, Hfw1, <- app_assoc. done.
  - by repeat constructor.
  - rewrite Hov2, Hov1, <- app_assoc. f_equal. cbn [omap list_omap].
    destruct (overlap_call_of data (a, "North", north));
      destruct (overlap_call_of data (a, "South", south)); done.
Qed.

Lemma certificate_loop_trace
    (getNorthSouthClone : nat → option TPFLine.t * option TPFLine.t)
    (op_exists : string → bool)
    (first_size : string → result (string * Z))
    (overlap : list string → option string)
    (data : gmap (string * string * string) string) (bb : string)
    (components : list (nat * TPFLine.t)) :
  ∀ st st',
    for_each
      (component_body getNorthSouthClone op_exists first_size overlap data bb)
      components st = ok st' →
    ∃ lines,
      fw st' = fw st ++ lines ∧
      Forall2 (reuses_stored data)
              (flat_map (directions getNorthSouthClone) components) lines ∧
      overlap_calls st'
      = overlap_calls st
        ++ omap (overlap_call_of data)
                (flat_map (directions getNorthSouthClone) components).
Proof.
  induction components as [|ia components IH]; intros st st';
    cbn [for_each flat_map].
  - intros [= <-]. exists []. rewrite !app_nil_r. by repeat split.
  - destruct (component_body _ _ _ _ _ _ st ia) as [e|st1] eqn:E;
      cbn [rbind]; [done|].
    apply component_body_trace in E as (lines1 & Hfw1 & Hr1 & Hov1).
    intros H. apply IH in H as (lines2 & Hfw2 & Hr2 & Hov2).
    exists (lines1 ++ lines2). split; [|split].
    + rewrite Hfw2, Hfw1, <- app_assoc. done.
    + by apply Forall2_app.
    + rewrite Hov2, Hov1, <- app_assoc, omap_app. done.
Qed.

(** C7. When [certificate] completes, it has written one line for each
    non-gap component and neighbour direction, in order; for every such
    pair whose key (direction, current clone id, neighbour clone id) is in
    the loaded certificate data the line written is the stored line, and
    the calls made to [overlap] are exactly those of the pairs of clones
    whose key is not in the data, so none is made for a stored key. *)
Theorem certificate_reuses_lines
    (getNorthSouthClone : nat → option TPFLine.t * option TPFLine.t)
    (op_exists : string → bool)
    (first_size : string → result (string * Z))
    (overlap : list string → option string)
    (data : gmap (string * string * string) string) (bb : string)
    (tpf : list TPFLine.t) (st : certificate_state) :
  certificate getNorthSouthClone op_exists first_size overlap data bb tpf
  = ok st →
  Forall2 (reuses_stored data) (neighbour_pairs getNorthSouthClone tpf)
          (fw st) ∧
  overlap_calls st
  = omap (overlap_call_of data) (neighbour_pairs getNorthSouthClone tpf) ∧
  (∀ d stored, stored_line_of data d = Some stored →
               overlap_call_of data d = None).
Proof.
  unfold certificate. intros H.
  apply certificate_loop_trace in H as (lines & Hfw & Hr & Hov).
  simpl in Hfw, Hov. subst lines. split; [done|]. split; [done|].
  intros d stored. unfold stored_line_of, overlap_call_of.
  destruct (pair_key d) as [[[tag aid] bid]|]; [|done].
  by intros ->.
Qed.

Lemma certificate_reuses_lines_witness :
  Forall2 (reuses_stored data_example)
          (neighbour_pairs neighbours_example [gap_line; clone_a; clone_b])
          (fw certificate_example_state) ∧
  overlap_calls certificate_example_state
  = omap (overlap_call_of data_example)
         (neighbour_pairs neighbours_example [gap_line; clone_a; clone_b]) ∧
  (∀ d stored, stored_line_of data_example d = Some stored →
               overlap_call_of data_example d = None).
Proof.
  apply (certificate_reuses_lines neighbours_example (fun _ => true)
           first_size_example (fun _ => None) data_example "Scaffold"
           [gap_line; clone_a; clone_b] certificate_example_state).
  reflexivity.
Defined.

(** ** The routines on the example inputs *)

Example mapbreaks_example :
  remove_singletons markers_example default_diff
  = ok ([ ["s1.20"; "A"; "A"]; ["s1.40"; "A"; "A"]; ["s1.50"; "A"; "A"];
          ["s1.60"; "C"; "C"] ], 1%nat) ∧
  retained_positions markers_example default_diff = [1; 3; 4; 5]%nat ∧
  mapbreaks markers_example default_diff = ok [join tab ["s1"; "50"; "60"]].
Proof. repeat split. Qed.

Example refine_example :
  refine_select int_decimal
    [tie_last; tie_first; ["s2"; "1"; "2"; "."; "-1"; "-1"; "0"]]
  = ok ([join tab ["s2"; "1"; "2"]], [join tab ["s1"; "150"; "160"; "10"]]).
Proof. reflexivity. Qed.

Example prepare_example :
  prepare range_parse_accn "Scaffold" sizes_example "om"
    [bed_unstranded; bed_minus; bed_other]
  = ok {| bed_fw := [join tab ["Scaffold1"; "0"; "5000"];
                     join tab ["Scaffold2"; "0"; "10300"]];
          tpf_fw := [join tab ["telomere"; "om"; "na"];
                     join tab ["Scaffold1:0-5000"; "om"; "+"];
                     join tab ["Scaffold2:0-10300"; "om"; "+"]];
          log := [] |}.
Proof. reflexivity. Qed.

(** A gap, then the two clones: the stored line is written as it is and
    [overlap] is called for the other pair only. *)
Example certificate_example :
  certificate
    (fun i => match i with
              | 1%nat => (Some gap_line, Some clone_b)
              | _ => (Some clone_a, None)
              end)
    (fun _ => true) first_size_example (fun _ => None) data_example
    "Scaffold" [gap_line; clone_a; clone_b]
  = ok {| fw := [join tab ["North"; "chr1"; "1"; "0"; "AC1"; "clone"; "58443"];
                 stored_line;
                 join tab ["North"; "chr1"; "1"; "1"; "AC2"; "AC1"; "37835";
                           "None"];
                 join tab ["South"; "chr1"; "1"; "1"; "AC2"; "telomere";
                           "37835"]];
          overlap_calls := [["AC2"; "AC1"; "--dir=fasta"]];
          bphase := Some (PhaseInt 1) |}.
Proof. reflexivity. Qed.

(** * Further properties *)

(** ** When [check_markers] raises *)

Lemma split_on_length sep s :
  length (split_on sep s) = S (count_char sep s).
Proof.
  induction s as [|c s IH]; simpl; [done|].
  destruct (Ascii.eqb c sep); simpl; [by rewrite IH|].
  destruct (split_on sep s); simpl in *; [done | exact IH].
Qed.

Lemma unpack2_ok {A} (l : list A) :
  (∃ xy, unpack2 l = ok xy) ↔ length l = 2%nat.
Proof.
  destruct l as [|x [|y [|z l]]]; simpl; split;
    try done; try (by intros [? ?]); try (by eexists).
Qed.

Lemma unpack2_error {A} (l : list A) e : unpack2 l = inl e → e = ValueError.
Proof. destruct l as [|x [|y [|z l]]]; simpl; congruence. Qed.

Lemma split_id_ok id :
  (∃ xy, unpack2 (split_on dot id) = ok xy) ↔ count_char dot id = 1%nat.
Proof. rewrite unpack2_ok, split_on_length. lia. Qed.

(** X1. [check_markers] returns a classification exactly when both rows
    are non-empty and both ids hold exactly one dot.  An empty row raises
    [IndexError], any other failure is the [ValueError] of unpacking the
    split id. *)
Theorem check_markers_returns_iff a b diff :
  ((∃ v, check_markers a b diff = ok v) ↔
   ∃ aid ageno bid bgeno,
     a = aid :: ageno ∧ b = bid :: bgeno ∧
     count_char dot aid = 1%nat ∧ count_char dot bid = 1%nat) ∧
  (check_markers a b diff = raise IndexError ↔ a = [] ∨ b = []) ∧
  (∀ e, check_markers a b diff = raise e → e = IndexError ∨ e = ValueError).
Proof.
  unfold check_markers, index.
  destruct a as [|aid ageno]; simpl.
  { split; [|split]; [split | split; auto | intros e [= <-]; auto].
    - by intros [v ?].
    - by intros (? & ? & ? & ? & ? & _). }
  destruct b as [|bid bgeno]; simpl.
  { split; [|split]; [split | split; auto | intros e [= <-]; auto].
    - by intros [v ?].
    - by intros (? & ? & ? & ? & _ & ? & _). }
  pose proof (split_id_ok aid) as Ha. pose proof (split_id_ok bid) as Hb.
  destruct (unpack2 (split_on dot aid)) as [ea|[ascf apos]] eqn:Ea; simpl.
  { apply unpack2_error in Ea as ->.
    split; [|split]; [split | split | intros e [= <-]; auto].
    - by intros [v ?].
    - intros (? & ? & ? & ? & [= <- <-] & _ & Hc & _).
      apply Ha in Hc as [? ?]. done.
    - done.
    - by intros [?|?]. }
  destruct (unpack2 (split_on dot bid)) as [eb|[bscf bpos]] eqn:Eb; simpl.
  { apply unpack2_error in Eb as ->.
    split; [|split]; [split | split | intros e [= <-]; auto].
    - by intros [v ?].
    - intros (? & ? & ? & ? & _ & [= <- <-] & _ & Hc).
      apply Hb in Hc as [? ?]. done.
    - done.
    - by intros [?|?]. }
  assert (Hca : count_char dot aid = 1%nat) by (apply Ha; by eexists).
  assert (Hcb : count_char dot bid = 1%nat) by (apply Hb; by eexists).
  split; [|split].
  - split; [|destruct (negb _); [|destruct (int_le_float _ _)]; by eexists].
    intros _. by exists aid, ageno, bid, bgeno.
  - split; [|by intros [?|?]].
    destruct (negb _); [|destruct (int_le_float _ _)]; done.
  - intros e. destruct (negb _); [|destruct (int_le_float _ _)]; done.
Qed.

(** ** The classification as a function of the rows and of the threshold *)

Lemma hamming_distance_sym a b ignore :
  hamming_distance a b ignore = hamming_distance b a ignore.
Proof.
  revert b. induction a as [|x a IH]; intros [|y b]; simpl; try done.
  rewrite IH, (orb_comm (String.eqb x ignore)), (String.eqb_sym x y). done.
Qed.

(** X2. For two rows with the same number of genotype calls, the label
    (or the exception) does not depend on the order of the two rows. *)
Theorem check_markers_label_sym a b diff :
  length (tail a) = length (tail b) →
  label_of (check_markers a b diff) = label_of (check_markers b a diff).
Proof.
  intros Hlen. unfold check_markers, index.
  destruct a as [|aid ageno], b as [|bid bgeno]; simpl in *; try done.
  destruct (unpack2 (split_on dot aid)) as [ea|[ascf apos]] eqn:Ea;
    destruct (unpack2 (split_on dot bid)) as [eb|[bscf bpos]] eqn:Eb;
    simpl; try done.
  - apply unpack2_error in Ea as ->. by apply unpack2_error in Eb as ->.
  - rewrite (String.eqb_sym bscf ascf), (hamming_distance_sym bgeno ageno).
    rewrite Hlen.
    destruct (negb _); [done|]. destruct (int_le_float _ _); done.
Qed.

Lemma check_markers_label_sym_witness :
  label_of (check_markers ["s1.10"; "A"; "B"; "-"] ["s1.20"; "A"; "A"; "A"]
              default_diff)
  = label_of (check_markers ["s1.20"; "A"; "A"; "A"] ["s1.10"; "A"; "B"; "-"]
                default_diff).
Proof.
  apply (check_markers_label_sym ["s1.10"; "A"; "B"; "-"]
           ["s1.20"; "A"; "A"; "A"] default_diff).
  reflexivity.
Defined.

(** X24. When the threshold is not a number, or is infinite while the rows
    hold no genotype calls, the product [len(ageno) * maxdiff] is not a
    number and [check_markers] answers BREAK for every pair of markers on
    one scaffold. *)
Theorem check_markers_nan_break
    aid bid ageno bgeno scf apos bpos (maxdiff : float) :
  marker_id aid scf apos → marker_id bid scf bpos →
  maxdiff = S754_nan ∨ (ageno = [] ∧ ∃ s, maxdiff = S754_infinity s) →
  check_markers (aid :: ageno) (bid :: bgeno) maxdiff
  = ok (BREAK, Some (scf, apos, bpos)).
Proof.
  intros Ha Hb Hm.
  rewrite (check_markers_unfold _ _ _ _ _ _ _ _ _ Ha Hb).
  rewrite String.eqb_refl. cbn [negb].
  assert (float_mul (float_of_int (Z.of_nat (length ageno))) maxdiff
          = S754_nan) as ->; [|done].
  destruct Hm as [-> | [-> [s ->]]].
  - unfold float_mul. by destruct (float_of_int _).
  - reflexivity.
Qed.

Lemma check_markers_nan_break_witness :
  check_markers ["s1.1"] ["s1.2"] (S754_infinity false)
  = ok (BREAK, Some ("s1", "1", "2")).
Proof.
  apply (check_markers_nan_break "s1.1" "s1.2" [] [] "s1" "1" "2"
           (S754_infinity false)).
  - repeat split.
  - repeat split.
  - right. split; [reflexivity|]. by exists false.
Defined.

(** ** [mapbreaks] on short and on headerless inputs *)

(** X5. With fewer than three rows [mapbreaks] compares nothing and prints
    nothing, whatever the rows are. *)
Theorem mapbreaks_short data diff :
  (length data < 3)%nat →
  remove_singletons data diff = ok ([], 0%nat) ∧ mapbreaks data diff = ok [].
Proof.
  intros Hlen. unfold mapbreaks, remove_singletons, interior_range.
  replace (length data - 2)%nat with 0%nat by lia. done.
Qed.

Lemma mapbreaks_short_witness :
  remove_singletons [["no dot"]; []] default_diff = ok ([], 0%nat) ∧
  mapbreaks [["no dot"]; []] default_diff = ok [].
Proof. apply (mapbreaks_short [["no dot"]; []] default_diff). simpl. lia. Defined.

Lemma singleton_count data diff positions :
  ∀ good0 n0 good n,
    for_each (singleton_body data diff) positions (good0, n0) = ok (good, n) →
    (length good + n = length good0 + n0 + length positions)%nat.
Proof.
  induction positions as [|i positions IH]; intros good0 n0 good n;
    cbn [for_each].
  - intros [= <- <-]. simpl. lia.
  - destruct (singleton_body data diff (good0, n0) i) as [e|st'] eqn:E;
      simpl; [done|].
    apply singleton_body_ok in E as (a & _ & ->).
    destruct (singleton data diff i); intros H; apply IH in H;
      rewrite ?length_app in H; simpl in *; lia.
Qed.

(** X6. When the singleton pass of [mapbreaks] completes, every interior
    marker is either retained or counted as a singleton: the retained
    markers and [nsingletons] add up to [len(data) - 2], or to 0 when
    there are fewer than two rows. *)
Theorem remove_singletons_accounting data diff good n :
  remove_singletons data diff = ok (good, n) →
  (Z.of_nat (length good) + Z.of_nat n
   = Z.max 0 (Z.of_nat (length data) - 2))%Z.
Proof.
  intros H. apply singleton_count in H.
  unfold interior_range in H. rewrite length_seq in H. simpl in H. lia.
Qed.

Lemma remove_singletons_accounting_witness :
  (Z.of_nat
     (length [ ["s1.20"; "A"; "A"]; ["s1.40"; "A"; "A"]; ["s1.50"; "A"; "A"];
               ["s1.60"; "C"; "C"] ])
   + Z.of_nat 1
   = Z.max 0 (Z.of_nat (length markers_example) - 2))%Z.
Proof.
  apply (remove_singletons_accounting markers_example default_diff
           [ ["s1.20"; "A"; "A"]; ["s1.40"; "A"; "A"]; ["s1.50"; "A"; "A"];
             ["s1.60"; "C"; "C"] ] 1%nat).
  reflexivity.
Defined.

(** ** Reading the genetic map *)

Lemma after_header_found pre header rest :
  Forall (fun row => String.prefix "locus_name" row = false) pre →
  String.prefix "locus_name" header = true →
  after_header (pre ++ header :: rest) = rest.
Proof.
  intros Hpre Hh. induction Hpre as [|row pre Hrow _ IH]; simpl.
  - by rewrite Hh.
  - by rewrite Hrow.
Qed.

Lemma after_header_absent lines :
  Forall (fun row => String.prefix "locus_name" row = false) lines →
  after_header lines = [].
Proof. induction 1 as [|row lines Hrow _ IH]; simpl; [done|]. by rewrite Hrow. Qed.

(** X7. [mapbreaks] reads its markers from the lines after the first line
    that starts with [locus_name]: everything up to and including that line
    is ignored, later lines are all split into rows (a second header line
    included). *)
Theorem mapbreaks_reads_after_header pre header rest diff :
  Forall (fun row => String.prefix "locus_name" row = false) pre →
  String.prefix "locus_name" header = true →
  parse_mstmap (pre ++ header :: rest) = map split_ws rest ∧
  mapbreaks_file (pre ++ header :: rest) diff
  = mapbreaks (map split_ws rest) diff.
Proof.
  intros Hpre Hh. unfold mapbreaks_file, parse_mstmap.
  by rewrite (after_header_found _ _ _ Hpre Hh).
Qed.

(** X8. Without a line that starts with [locus_name] the first loop of
    [mapbreaks] uses up the file: no marker is read and nothing is
    printed. *)
Theorem mapbreaks_without_header lines diff :
  Forall (fun row => String.prefix "locus_name" row = false) lines →
  parse_mstmap lines = [] ∧ mapbreaks_file lines diff = ok [].
Proof.
  intros H. unfold mapbreaks_file, parse_mstmap.
  by rewrite (after_header_absent _ H).
Qed.

Lemma mapbreaks_reads_after_header_witness :
  parse_mstmap (mstmap_preamble ++ mstmap_header :: mstmap_markers)
  = map split_ws mstmap_markers ∧
  mapbreaks_file (mstmap_preamble ++ mstmap_header :: mstmap_markers) default_diff
  = mapbreaks (map split_ws mstmap_markers) default_diff.
Proof.
  apply (mapbreaks_reads_after_header mstmap_preamble mstmap_header
           mstmap_markers default_diff).
  - unfold mstmap_preamble. repeat apply Forall_cons_2; try apply Forall_nil_2;
      reflexivity.
  - reflexivity.
Defined.

Lemma mapbreaks_without_header_witness :
  parse_mstmap mstmap_markers = [] ∧
  mapbreaks_file mstmap_markers default_diff = ok [].
Proof.
  apply (mapbreaks_without_header mstmap_markers default_diff).
  unfold mstmap_markers, markers_example. simpl.
  repeat apply Forall_cons_2; try apply Forall_nil_2; reflexivity.
Defined.

(** ** Splitting a line into fields *)

Lemma split_go_fields s :
  spaceless (fst (split_go s)) = true ∧
  Forall (fun f => is_field f = true) (snd (split_go s)).
Proof.
  induction s as [|c s [IHf IHfs]]; cbn [split_go]; [by split|].
  destruct (split_go s) as [field fields]. cbn [fst snd] in *.
  destruct (is_space c) eqn:Ec; cbn [fst snd].
  - split; [done|]. destruct field as [|c' field]; [done|].
    apply Forall_cons_2; [|done]. unfold is_field. by rewrite IHf.
  - split; [|done]. cbn [spaceless]. by rewrite Ec, IHf.
Qed.

Lemma split_go_spaceless s : spaceless s = true → split_go s = (s, []).
Proof.
  induction s as [|c s IH]; cbn [split_go spaceless]; [done|].
  intros [Hc Hs]%andb_true_iff. apply negb_true_iff in Hc.
  by rewrite (IH Hs), Hc.
Qed.

Lemma split_ws_spaceless s :
  spaceless s = true → split_ws s = if String.eqb s "" then [] else [s].
Proof.
  intros Hs. unfold split_ws. rewrite (split_go_spaceless s Hs).
  by destruct s.
Qed.

(** X9. Every field that [split()] yields is non-empty and holds no
    whitespace character; in particular a blank line yields no field. *)
Theorem split_ws_fields s :
  Forall (fun f => is_field f = true) (split_ws s) ∧
  (spaceless s = true → split_ws s = if String.eqb s "" then [] else [s]).
Proof.
  split; [|apply split_ws_spaceless].
  unfold split_ws. pose proof (split_go_fields s) as [Hf Hfs].
  destruct (split_go s) as [field fields]. simpl in *.
  destruct field as [|c field]; [done|].
  apply Forall_cons_2; [|done]. unfold is_field. by rewrite Hf.
Qed.

Lemma split_go_app t s :
  spaceless t = true →
  split_go (t +:+ s) = (t +:+ fst (split_go s), snd (split_go s)).
Proof.
  induction t as [|c t IH].
  - intros _. change ("" +:+ s) with s. by destruct (split_go s).
  - cbn [spaceless]. intros [Hc Ht]%andb_true_iff.
    apply negb_true_iff in Hc.
    change (String c t +:+ s) with (String c (t +:+ s)).
    cbn [split_go]. rewrite (IH Ht), Hc. done.
Qed.

Lemma split_ws_cons t sep s :
  is_field t = true → is_space sep = true →
  split_ws (t +:+ String sep s) = t :: split_ws s.
Proof.
  intros [Hne Ht]%andb_true_iff Hsep. unfold split_ws.
  rewrite (split_go_app _ _ Ht). cbn -[is_space]. rewrite Hsep.
  destruct (split_go s) as [field fields]. cbn -[is_space].
  destruct t as [|c t]; [done|].
  change (String c t +:+ "") with (String c (t +:+ "")).
  assert (t +:+ "" = t) as ->; [|done].
  clear. induction t as [|c t IH]; [done|].
  change (String c t +:+ "") with (String c (t +:+ "")). by rewrite IH.
Qed.

(** X10. A line written by joining non-empty, whitespace-free fields with
    a tab (or any other single whitespace character) is read back by
    [split()] as the same fields. *)
Theorem split_ws_join sep (fields : list string) :
  is_space sep = true →
  Forall (fun f => is_field f = true) fields →
  split_ws (join (String sep EmptyString) fields) = fields.
Proof.
  intros Hsep. unfold join.
  induction 1 as [|t fields Ht Hfields IH]; [done|].
  destruct fields as [|t' fields].
  - simpl. apply andb_true_iff in Ht as [Hne Hs].
    rewrite (split_ws_spaceless t Hs).
    apply negb_true_iff in Hne. by rewrite Hne.
  - change (split_ws
              (t +:+ String sep
                       (String.concat (String sep EmptyString) (t' :: fields)))
            = t :: t' :: fields).
    rewrite (split_ws_cons _ _ _ Ht Hsep). by rewrite IH.
Qed.

Lemma split_ws_join_witness :
  split_ws (join tab ["s1"; "50"; "60"]) = ["s1"; "50"; "60"].
Proof.
  apply (split_ws_join (ascii_of_nat 9) ["s1"; "50"; "60"]).
  - reflexivity.
  - repeat apply Forall_cons_2; try apply Forall_nil_2; reflexivity.
Defined.

(** ** The groups that [refine] and [prepare] iterate over *)

Lemma groupby_cons {A K} `{EqDecision K} (key : A → K) x l :
  ∃ g groups,
    groupby key (x :: l) = (key x, x :: g) :: groups ∧
    (groupby key l = groups ∧ g = [] ∧
       (∀ k g', head groups = Some (k, g') → k ≠ key x)
     ∨ groupby key l = (key x, g) :: groups).
Proof.
  cbn [groupby]. destruct (groupby key l) as [|[k g] groups] eqn:E.
  - exists [], []. split; [done|]. left. by repeat split.
  - case_bool_decide as Ek.
    + subst k. exists g, groups. split; [done|]. by right.
    + exists [], ((k, g) :: groups). split; [done|]. left.
      repeat split. intros k' g' [= <- <-]. done.
Qed.

Lemma elem_of_concat {A} (x : A) (ls : list (list A)) :
  x ∈ concat ls ↔ ∃ l, l ∈ ls ∧ x ∈ l.
Proof.
  induction ls as [|l0 ls IH]; simpl.
  - split; [by intros ?%elem_of_nil|]. by intros (l & ?%elem_of_nil & _).
  - rewrite elem_of_app, IH. split.
    + intros [Hx|(l & Hl & Hx)]; [exists l0 | exists l]; split; auto.
      * left.
      * by right.
    + intros (l & [->|Hl]%elem_of_cons & Hx); [by left|].
      right. by exists l.
Qed.

Lemma groupby_members {A K} `{EqDecision K} (key : A → K) (l : list A) :
  concat (map snd (groupby key l)) = l ∧
  Forall (fun kg => snd kg ≠ [] ∧ Forall (fun x => key x = fst kg) (snd kg))
         (groupby key l).
Proof.
  induction l as [|x l (IHc & IHg)]; [by split|].
  destruct (groupby_cons key x l) as (g & groups & -> & Hcase).
  destruct Hcase as [(Hl & -> & Hhead)|Hl]; rewrite Hl in *.
  - split; [simpl; by rewrite IHc|].
    apply Forall_cons_2; [|done]. split; [done|]. by apply Forall_cons_2.
  - simpl in IHc. split; [simpl; by rewrite IHc|].
    apply Forall_cons in IHg as [[_ Hg] IHg]. simpl in Hg.
    apply Forall_cons_2; [|done]. split; [done|]. by apply Forall_cons_2.
Qed.

(** X11. The groups of [groupby] are the maximal runs of consecutive
    elements with equal keys: put end to end they give the input back,
    none is empty, every member of a group has the key of the group, and
    two consecutive groups have different keys. *)
Theorem groupby_runs {A K} `{EqDecision K} (key : A → K) (l : list A) :
  concat (map snd (groupby key l)) = l ∧
  Forall (fun kg => snd kg ≠ [] ∧ Forall (fun x => key x = fst kg) (snd kg))
         (groupby key l) ∧
  (∀ i kg kg', groupby key l !! i = Some kg →
               groupby key l !! S i = Some kg' → fst kg ≠ fst kg').
Proof.
  destruct (groupby_members key l) as [Hcat Hmem].
  split; [done|]. split; [done|]. clear Hcat Hmem.
  induction l as [|x l IHa]; [done|].
  destruct (groupby_cons key x l) as (g & groups & -> & Hcase).
  destruct Hcase as [(Hl & -> & Hhead)|Hl]; rewrite Hl in *.
  - intros [|i] kg kg'; simpl.
    + intros [= <-] Hi. destruct kg' as [k' g']. simpl.
      intros Hk. eapply Hhead; [|symmetry; exact Hk].
      destruct groups; [done|]. by simplify_eq/=.
    + apply IHa.
  - intros [|i] kg kg'; simpl.
    + intros [= <-] Hi. simpl. by apply (IHa 0%nat (key x, g) kg').
    + intros Hi Hi'. by apply (IHa (S i) kg kg').
Qed.

(** ** What [refine] writes *)

Lemma for_each_preserves {A S} (body : S → A → result S)
    (P : S → Prop) (Q : A → Prop) xs :
  (∀ st x st', Q x → P st → body st x = ok st' → P st') →
  Forall Q xs →
  ∀ st st', P st → for_each body xs st = ok st' → P st'.
Proof.
  intros Hbody. induction 1 as [|x xs Hx _ IH]; intros st st' HP;
    cbn [for_each].
  - by intros [= <-].
  - destruct (body st x) as [e|st1] eqn:E; cbn [rbind]; [done|].
    apply IH. by eapply Hbody.
Qed.

Lemma no_overlap_true (gaps : list row) :
  no_overlap gaps = ok true →
  ∃ gap, gaps = [gap] ∧ gap !! 3%nat = Some ".".
Proof.
  unfold no_overlap, index.
  destruct gaps as [|gap [|gap' gaps]]; simpl; try done.
  destruct (_ !! _) as [name|] eqn:E; simpl; [|done].
  intros [= H]. apply String.eqb_eq in H as ->. by exists gap.
Qed.

(** The two ways in which the body of the loop of [refine] completes. *)
Lemma refine_body_ok int nogapsfw largestgapsfw b gaps st' :
  refine_body int (nogapsfw, largestgapsfw) (b, gaps) = ok st' →
  (∃ gap, gaps = [gap] ∧ gap !! 3%nat = Some "." ∧
          gap !! 4%nat = Some "-1" ∧
          st' = (nogapsfw ++ [join tab b], largestgapsfw)) ∨
  (∃ n x, x ∈ gaps ∧ sized int x = ok (n, x) ∧
          st' = (nogapsfw, largestgapsfw ++ [join tab (drop 3 x)])).
Proof.
  unfold refine_body.
  destruct (no_overlap gaps) as [e|[|]] eqn:Eno; cbn [rbind];
    [congruence| |].
  - apply no_overlap_true in Eno as (gap & -> & H3). unfold index. simpl.
    destruct (lookup (M := list string) 4%nat gap) as [ov|] eqn:E4; simpl; [|congruence].
    destruct (String.eqb_spec ov "-1") as [->|]; [|congruence].
    intros [= <-]. left. by exists gap.
  - destruct (comprehension (sized int) gaps) as [e|gaps'] eqn:Ec;
      cbn [rbind]; [congruence|].
    destruct gaps' as [|p gaps']; simpl; [congruence|].
    intros [= <-]. right.
    pose proof (max_scan sized_cmp gaps' sized_total_order p) as (Hin & _).
    unfold sized_gt.
    set (best := fold_left _ gaps' p) in *.
    apply comprehension_Forall2 in Ec.
    apply list_elem_of_lookup in Hin as [i Hi].
    destruct (Forall2_lookup_r _ _ _ _ _ Ec Hi) as (x & Hx & Hs).
    destruct best as [n y]. pose proof (sized_row _ _ _ _ Hs) as ->.
    exists n, x. split; [by eapply list_elem_of_lookup_2 | done].
Qed.

(** X12. When [refine] completes, each breakpoint region has given exactly
    one line, either to the no-gap file or to the largest-gap file. *)
Theorem refine_one_line_per_region int data nogapsfw largestgapsfw :
  refine_select int data = ok (nogapsfw, largestgapsfw) →
  (length nogapsfw + length largestgapsfw
   = length (groupby (take 3) data))%nat.
Proof.
  unfold refine_select.
  assert (∀ groups ng lg ng' lg',
            for_each (refine_body int) groups (ng, lg) = ok (ng', lg') →
            (length ng' + length lg'
             = length ng + length lg + length groups)%nat) as H.
  { induction groups as [|[b gaps] groups IH]; intros ng lg ng' lg';
      cbn [for_each].
    - intros [= <- <-]. simpl. lia.
    - destruct (refine_body int (ng, lg) (b, gaps)) as [e|st1] eqn:E;
        cbn [rbind]; [done|].
      apply refine_body_ok in E
        as [(gap & _ & _ & _ & ->)|(n & x & _ & _ & ->)];
        intros H; apply IH in H; rewrite length_app in H; simpl in *; lia. }
  intros Hr. apply H in Hr. exact Hr.
Qed.

Lemma refine_one_line_per_region_witness :
  (length [join tab ["s2"; "1"; "2"]]
   + length [join tab ["s1"; "150"; "160"; "10"]]
   = length (groupby (take 3)
               [tie_last; tie_first;
                ["s2"; "1"; "2"; "."; "-1"; "-1"; "0"]]))%nat.
Proof.
  apply (refine_one_line_per_region int_decimal
           [tie_last; tie_first; ["s2"; "1"; "2"; "."; "-1"; "-1"; "0"]]).
  reflexivity.
Defined.

(** X13. Every line that [refine] writes comes from a row of its input: a
    no-gap line is the first three columns of a row whose fourth column is
    "." and whose fifth is "-1"; a largest-gap line is the columns after the
    third of a row whose last column is an integer. *)
Theorem refine_lines_from_rows int data nogapsfw largestgapsfw :
  refine_select int data = ok (nogapsfw, largestgapsfw) →
  Forall (fun line =>
            ∃ x, x ∈ data ∧ x !! 3%nat = Some "." ∧ x !! 4%nat = Some "-1" ∧
                 line = join tab (take 3 x)) nogapsfw ∧
  Forall (fun line =>
            ∃ x n, x ∈ data ∧ sized int x = ok (n, x) ∧
                   line = join tab (drop 3 x)) largestgapsfw.
Proof.
  unfold refine_select.
  destruct (groupby_members (take 3) data) as (Hcat & Hgroups).
  apply (for_each_preserves (refine_body int)
           (fun st =>
              Forall (fun line =>
                        ∃ x, x ∈ data ∧ x !! 3%nat = Some "." ∧
                             x !! 4%nat = Some "-1" ∧
                             line = join tab (take 3 x)) (fst st) ∧
              Forall (fun line =>
                        ∃ x n, x ∈ data ∧ sized int x = ok (n, x) ∧
                               line = join tab (drop 3 x)) (snd st))
           (fun bg => bg ∈ groupby (take 3) data));
    [|by apply Forall_forall|by split].
  intros [ng lg] [b gaps] st' Hin [Hng Hlg] Hbody. simpl in *.
  assert (Hsub : ∀ x, x ∈ gaps → x ∈ data ∧ take 3 x = b).
  { intros x Hx. split.
    - rewrite <- Hcat. apply elem_of_concat. exists gaps. split; [|done].
      by apply (list_elem_of_fmap_2 snd _ (b, gaps)).
    - rewrite Forall_forall in Hgroups.
      destruct (Hgroups _ Hin) as [_ Hkeys]. simpl in Hkeys.
      rewrite Forall_forall in Hkeys. by apply Hkeys. }
  apply refine_body_ok in Hbody
    as [(gap & -> & H3 & H4 & ->)|(n & x & Hx & Hs & ->)]; simpl.
  - split; [|done]. apply Forall_app. split; [done|].
    apply Forall_cons_2; [|done].
    destruct (Hsub gap) as [Hd <-]; [left|]. by exists gap.
  - split; [done|]. apply Forall_app. split; [done|].
    apply Forall_cons_2; [|done].
    destruct (Hsub x Hx) as [Hd _]. by exists x, n.
Qed.

Lemma refine_lines_from_rows_witness :
  Forall (fun line =>
            ∃ x, x ∈ [tie_last; tie_first;
                      ["s2"; "1"; "2"; "."; "-1"; "-1"; "0"]] ∧
                 x !! 3%nat = Some "." ∧ x !! 4%nat = Some "-1" ∧
                 line = join tab (take 3 x))
         [join tab ["s2"; "1"; "2"]] ∧
  Forall (fun line =>
            ∃ x n, x ∈ [tie_last; tie_first;
                        ["s2"; "1"; "2"; "."; "-1"; "-1"; "0"]] ∧
                   sized int_decimal x = ok (n, x) ∧
                   line = join tab (drop 3 x))
         [join tab ["s1"; "150"; "160"; "10"]].
Proof.
  apply (refine_lines_from_rows int_decimal
           [tie_last; tie_first; ["s2"; "1"; "2"; "."; "-1"; "-1"; "0"]]).
  reflexivity.
Defined.

(** ** The first pass of [prepare] *)

Lemma uniq_body_app bb acc ksb :
  uniq_body bb acc ksb = acc ++ uniq_body bb [] ksb.
Proof.
  unfold uniq_body.
  destruct (filter _ (snd ksb)) as [|y ys];
    [done | destruct (filter _ (snd ksb)); done].
Qed.

Lemma make_uniq_concat bb bed :
  make_uniq bb bed = concat (map (uniq_body bb []) (groupby interval_key bed)).
Proof.
  unfold make_uniq. change (fun x => _) with interval_key.
  generalize (groupby interval_key bed). intros groups.
  assert (∀ acc, fold_left (uniq_body bb) groups acc
                 = acc ++ concat (map (uniq_body bb []) groups)) as H.
  { induction groups as [|ksb groups IH]; intros acc; simpl.
    - by rewrite app_nil_r.
    - rewrite IH, (uniq_body_app bb acc), <- app_assoc. done. }
  apply H.
Qed.

(** What the first pass keeps of one group: the backbone records if the
    group holds records of both sides, the whole group otherwise. *)
Lemma uniq_body_group bb k sb :
  let backbone := filter (fun x => is_bb bb x = true) sb in
  let others := filter (fun x => is_bb bb x = false) sb in
  (backbone ≠ [] ∧ others ≠ [] ∧ uniq_body bb [] (k, sb) = backbone) ∨
  ((backbone = [] ∨ others = []) ∧ uniq_body bb [] (k, sb) = sb).
Proof.
  unfold uniq_body. simpl.
  destruct (filter (fun x => is_bb bb x = true) sb) as [|y ys].
  - right. split; [by left | done].
  - destruct (filter (fun x => is_bb bb x = false) sb) as [|z zs].
    + right. split; [by right | done].
    + left. done.
Qed.

Lemma filter_concat {A} (P : A → Prop) `{!∀ x, Decision (P x)}
    (ls : list (list A)) :
  filter P (concat ls) = concat (map (filter P) ls).
Proof.
  induction ls as [|l ls IH]; simpl; [done|]. by rewrite filter_app, IH.
Qed.

(** X14. The first pass of [prepare] keeps every record of the backbone
    assembly, in the order of the input. *)
Theorem make_uniq_keeps_backbone bb bed :
  filter (fun x => is_bb bb x = true) (make_uniq bb bed)
  = filter (fun x => is_bb bb x = true) bed.
Proof.
  rewrite make_uniq_concat, filter_concat.
  destruct (groupby_members interval_key bed) as (Hcat & _).
  rewrite <- Hcat at 2. rewrite filter_concat, !map_map.
  f_equal. apply map_ext. intros [k sb]. simpl.
  destruct (uniq_body_group bb k sb) as [(_ & _ & ->)|(_ & ->)]; [|done].
  by apply list_filter_filter_l.
Qed.

Lemma sublist_concat {A} (ls ks : list (list A)) :
  Forall2 sublist ls ks → concat ls `sublist_of` concat ks.
Proof.
  induction 1 as [|l k ls ks Hl _ IH]; simpl; [constructor|].
  by apply sublist_app.
Qed.

(** X15. The first pass of [prepare] only drops records: what it keeps is
    a subsequence of the input, and a record is dropped only if it is not of
    the backbone assembly while a backbone record of the input has the same
    sequence id, start and end. *)
Theorem make_uniq_drops bb bed :
  make_uniq bb bed `sublist_of` bed ∧
  ∀ x, x ∈ bed → x ∉ make_uniq bb bed →
       is_bb bb x = false ∧
       ∃ y, y ∈ bed ∧ is_bb bb y = true ∧ interval_key y = interval_key x.
Proof.
  rewrite make_uniq_concat.
  destruct (groupby_members interval_key bed) as (Hcat & Hgroups).
  split.
  - rewrite <- Hcat at 2. apply sublist_concat.
    apply Forall2_fmap, Forall_Forall2_diag, Forall_forall.
    intros [k sb] _. simpl.
    destruct (uniq_body_group bb k sb) as [(_ & _ & ->)|(_ & ->)]; [|done].
    apply sublist_filter.
  - intros x Hx Hnot. rewrite <- Hcat in Hx.
    apply elem_of_concat in Hx as (sb & Hsb & Hx).
    apply list_elem_of_fmap in Hsb as ([k sb'] & -> & Hin). simpl in Hx.
    assert (Hmem : ∀ y, y ∈ sb' → y ∈ bed ∧ interval_key y = k).
    { intros y Hy. split.
      - rewrite <- Hcat. apply elem_of_concat. exists sb'. split; [|done].
        by apply (list_elem_of_fmap_2 snd _ (k, sb')).
      - rewrite Forall_forall in Hgroups.
        destruct (Hgroups _ Hin) as [_ Hkeys]. simpl in Hkeys.
        rewrite Forall_forall in Hkeys. by apply Hkeys. }
    assert (Hout : x ∉ uniq_body bb [] (k, sb')).
    { intros Hc. apply Hnot, elem_of_concat.
      exists (uniq_body bb [] (k, sb')). split; [|done].
      by apply (list_elem_of_fmap_2 (uniq_body bb [])). }
    destruct (uniq_body_group bb k sb') as [(Hb & _ & E)|(_ & E)];
      rewrite E in Hout; [|done].
    destruct (is_bb bb x) eqn:Ex.
    { exfalso. apply Hout. by apply list_elem_of_filter. }
    split; [done|].
    destruct (filter (fun x => is_bb bb x = true) sb') as [|y ys] eqn:Ef;
      [done|].
    assert (Hy : y ∈ filter (fun x => is_bb bb x = true) sb')
      by (rewrite Ef; left).
    apply list_elem_of_filter in Hy as [Hyb Hy].
    destruct (Hmem y Hy) as [Hyd Hyk]. destruct (Hmem x Hx) as [_ Hxk].
    exists y. repeat split; [done | done | congruence].
Qed.

(** ** The interval returned by [merge_ranges] *)

(** X16. If every parsed range of a group that shares one sequence id has
    its start at or before its end, so has the merged interval. *)
Theorem merge_ranges_ordered range_parse beds mr c :
  comprehension range_parse (map BedLine.accn beds) = ok mr →
  mr ≠ [] → (∀ r, r ∈ mr → Range.seqid r = c) →
  (∀ r, r ∈ mr → (Range.start r ≤ Range.end_ r)%Z) →
  ∃ ms me strand,
    merge_ranges range_parse beds = ok (Some (c, ms, me, strand), []) ∧
    (ms ≤ me)%Z.
Proof.
  intros Hmr Hne Hall Hord.
  destruct (merge_ranges_shared range_parse beds mr c Hmr Hne Hall)
    as (ms & me & Hm & _ & Hmin & _ & Hmax).
  exists ms, me, (if (neg_count beds >? pos_count beds)%Z then "-" else "+").
  split; [done|].
  destruct mr as [|r mr]; [done|].
  assert (Hr : r ∈ r :: mr) by left.
  specialize (Hmin r Hr). specialize (Hmax r Hr). specialize (Hord r Hr).
  lia.
Qed.

Lemma merge_ranges_ordered_witness :
  ∃ ms me strand,
    merge_ranges range_parse_accn [bed_minus; bed_plus]
    = ok (Some ("Scaffold1", ms, me, strand), []) ∧
    (ms ≤ me)%Z.
Proof.
  apply (merge_ranges_ordered range_parse_accn [bed_minus; bed_plus]
           [Range.mk "Scaffold1" 150 300; Range.mk "Scaffold1" 120 250]).
  - reflexivity.
  - discriminate.
  - intros r Hr. repeat (apply elem_of_cons in Hr as [->|Hr]; [reflexivity|]).
    by apply elem_of_nil in Hr.
  - intros r Hr.
    repeat (apply elem_of_cons in Hr as [->|Hr]; [simpl; lia|]).
    by apply elem_of_nil in Hr.
Defined.

Lemma comprehension_perm {A B} (f : A → result B) l l' :
  l ≡ₚ l' →
  ∀ ys, comprehension f l = ok ys →
        ∃ ys', comprehension f l' = ok ys' ∧ ys ≡ₚ ys'.
Proof.
  induction 1 as [|x l l' _ IH|x y l|l l' l'' _ IH1 _ IH2]; intros ys; simpl.
  - intros [= <-]. by exists [].
  - destruct (f x) as [e|z]; simpl; [done|].
    destruct (comprehension f l) as [e|zs]; simpl; [done|].
    intros [= <-]. destruct (IH zs eq_refl) as (zs' & -> & Hp). simpl.
    exists (z :: zs'). split; [done|]. by constructor.
  - destruct (f y) as [e|b]; simpl; [done|].
    destruct (f x) as [e|a]; simpl; [done|].
    destruct (comprehension f l) as [e|zs]; simpl; [done|].
    intros [= <-]. exists (a :: b :: zs). split; [done|]. constructor.
  - intros H. destruct (IH1 ys H) as (ys' & H' & Hp).
    destruct (IH2 ys' H') as (ys'' & H'' & Hp').
    exists ys''. split; [done|]. by etrans.
Qed.

Lemma py_min_perm (l l' : list Z) :
  l ≡ₚ l' → py_min Z.ltb l' = py_min Z.ltb l.
Proof.
  intros Hp. destruct l as [|x l].
  { apply Permutation_nil in Hp as ->. done. }
  destruct l' as [|x' l'].
  { symmetry in Hp. by apply Permutation_nil in Hp. }
  cbn [py_min]. f_equal.
  destruct (min_scan l x) as [Hin Hmin].
  destruct (min_scan l' x') as [Hin' Hmin'].
  rewrite Hp in Hin. rewrite <- Hp in Hin'.
  specialize (Hmin _ Hin'). specialize (Hmin' _ Hin). lia.
Qed.

Lemma py_max_perm (l l' : list Z) :
  l ≡ₚ l' → py_max Z.gtb l' = py_max Z.gtb l.
Proof.
  intros Hp. destruct l as [|x l].
  { apply Permutation_nil in Hp as ->. done. }
  destruct l' as [|x' l'].
  { symmetry in Hp. by apply Permutation_nil in Hp. }
  cbn [py_max]. f_equal.
  destruct (max_scan_Z l x) as [Hin Hmax].
  destruct (max_scan_Z l' x') as [Hin' Hmax'].
  rewrite Hp in Hin. rewrite <- Hp in Hin'.
  specialize (Hmax _ Hin'). specialize (Hmax' _ Hin). lia.
Qed.

(** X17. The result of [merge_ranges] does not depend on the order of the
    records of the group, as long as every accession parses. *)
Theorem merge_ranges_perm range_parse beds beds' mr :
  beds ≡ₚ beds' →
  comprehension range_parse (map BedLine.accn beds) = ok mr →
  merge_ranges range_parse beds' = merge_ranges range_parse beds.
Proof.
  intros Hp Hmr.
  destruct (comprehension_perm range_parse _ _
              (Permutation_map BedLine.accn Hp) mr Hmr) as (mr' & Hmr' & Hpm).
  unfold merge_ranges. rewrite Hmr, Hmr'. cbn [rbind].
  assert ((list_to_set (map Range.seqid mr') : gset string)
          = list_to_set (map Range.seqid mr)) as ->.
  { apply list_to_set_perm_L. symmetry. by apply Permutation_map. }
  destruct (negb _); [done|].
  destruct (index _ 0) as [e|mc]; cbn [rbind]; [done|].
  rewrite (py_min_perm (map Range.start mr) (map Range.start mr'))
    by by apply Permutation_map.
  rewrite (py_max_perm (map Range.end_ mr) (map Range.end_ mr'))
    by by apply Permutation_map.
  assert (length (filter (fun x => BedLine.strand x = "-") beds')
          = length (filter (fun x => BedLine.strand x = "-") beds)) as ->.
  { apply Permutation_length. symmetry. by apply filter_Permutation. }
  by rewrite <- (Permutation_length Hp).
Qed.

Lemma merge_ranges_perm_witness :
  merge_ranges range_parse_accn [bed_plus; bed_minus; bed_unstranded]
  = merge_ranges range_parse_accn [bed_unstranded; bed_minus; bed_plus].
Proof.
  apply (merge_ranges_perm range_parse_accn
           [bed_unstranded; bed_minus; bed_plus]
           [bed_plus; bed_minus; bed_unstranded]
           [Range.mk "Scaffold1" 100 200; Range.mk "Scaffold1" 150 300;
            Range.mk "Scaffold1" 120 250]).
  - etrans; [apply Permutation_swap|].
    etrans; [apply perm_skip, Permutation_swap|].
    apply Permutation_swap.
  - reflexivity.
Defined.

(** ** The groups of the condensing loop of [prepare] *)

Lemma rbind_ok {A} (m : result A) : rbind m (fun x => ok x) = m.
Proof. by destruct m. Qed.

(** The loop over the rest of the input, a group being under way. *)
Lemma for_groups_pending {A K S} `{EqDecision K} (key : A → result K)
    (key' : A → K) (body : S → K * list A → result S) (l : list A) :
  (∀ x, x ∈ l → key x = ok (key' x)) →
  ∀ k g st,
    for_groups key body l (Some (k, g)) st
    = match groupby key' l with
      | (k', g') :: groups =>
          if bool_decide (k' = k)
          then for_each body ((k, g ++ g') :: groups) st
          else for_each body ((k, g) :: (k', g') :: groups) st
      | [] => body st (k, g)
      end.
Proof.
  induction l as [|x l IH]; intros Hkey k g st; [done|].
  assert (Hl : ∀ y, y ∈ l → key y = ok (key' y))
    by (intros y Hy; apply Hkey; by right).
  specialize (IH Hl).
  cbn [for_groups]. rewrite (Hkey x) by left. cbn [rbind].
  destruct (groupby_cons key' x l) as (g1 & groups & -> & Hcase).
  assert (Hstart : ∀ st1,
            for_groups key body l (Some (key' x, [x])) st1
            = for_each body ((key' x, x :: g1) :: groups) st1).
  { intros st1. rewrite IH.
    destruct Hcase as [(Hgl & -> & Hhead)|Hgl]; rewrite Hgl.
    - destruct groups as [|[k' g'] groups]; [cbn; by rewrite rbind_ok|].
      rewrite bool_decide_eq_false_2; [done|]. by eapply Hhead.
    - by rewrite bool_decide_eq_true_2. }
  case_bool_decide as Ek.
  - subst k. rewrite IH.
    destruct Hcase as [(Hgl & -> & Hhead)|Hgl]; rewrite Hgl.
    + destruct groups as [|[k' g'] groups]; [cbn; by rewrite rbind_ok|].
      rewrite bool_decide_eq_false_2; [done|]. by eapply Hhead.
    + rewrite bool_decide_eq_true_2 by done.
      by rewrite <- app_assoc.
  - cbn [for_each]. destruct (body st (k, g)) as [e|st1]; cbn [rbind];
      [done|].
    apply Hstart.
Qed.

Lemma for_groups_groupby {A K S} `{EqDecision K} (key : A → result K)
    (key' : A → K) (body : S → K * list A → result S) (l : list A) st :
  (∀ x, x ∈ l → key x = ok (key' x)) →
  for_groups key body l None st = for_each body (groupby key' l) st.
Proof.
  intros Hkey. destruct l as [|x l]; [done|].
  cbn [for_groups]. rewrite (Hkey x) by left. cbn [rbind].
  rewrite (for_groups_pending key key' body l)
    by (intros y Hy; apply Hkey; by right).
  destruct (groupby_cons key' x l) as (g1 & groups & -> & Hcase).
  destruct Hcase as [(Hgl & -> & Hhead)|Hgl]; rewrite Hgl.
  - destruct groups as [|[k' g'] groups]; [cbn; by rewrite rbind_ok|].
    rewrite bool_decide_eq_false_2; [done|]. by eapply Hhead.
  - by rewrite bool_decide_eq_true_2.
Qed.

(** X18. When every accession parses, the second loop of [prepare] runs
    its body once on each maximal run of consecutive records with the same
    parsed sequence id, in the order of the input. *)
Theorem condense_runs range_parse sizes pf bed (parsed : BedLine.t → Range.t) :
  (∀ x, x ∈ bed → range_parse (BedLine.accn x) = ok (parsed x)) →
  condense range_parse sizes pf bed
  = for_each (condense_body range_parse sizes pf)
      (groupby (fun x => (lambda_is_bb, Range.seqid (parsed x))) bed)
      (prepare_start pf).
Proof.
  intros Hparse. unfold condense. apply for_groups_groupby.
  intros x Hx. unfold condense_key. by rewrite (Hparse x Hx).
Qed.

Lemma condense_runs_witness :
  condense range_parse_accn sizes_example "om"
    [bed_unstranded; bed_minus; bed_other]
  = for_each (condense_body range_parse_accn sizes_example "om")
      (groupby (fun x => (lambda_is_bb, Range.seqid (parsed_example x)))
               [bed_unstranded; bed_minus; bed_other])
      (prepare_start "om").
Proof.
  apply (condense_runs range_parse_accn sizes_example "om"
           [bed_unstranded; bed_minus; bed_other] parsed_example).
  intros x Hx. repeat (apply elem_of_cons in Hx as [->|Hx]; [reflexivity|]).
  by apply elem_of_nil in Hx.
Defined.

(** ** The two files written by [prepare] *)

Lemma condense_body_entry range_parse sizes pf st k g st' :
  group_of (condense_key range_parse) k g →
  condense_body range_parse sizes pf st (k, g) = ok st' →
  ∃ entry,
    bed_fw st' = bed_fw st ++ [bed_line entry] ∧
    tpf_fw st' = tpf_fw st ++ [tpf_line pf entry] ∧
    (snd entry = "-" ∨ snd entry = "+").
Proof.
  intros Hg.
  destruct (condense_group_shared _ _ _ Hg) as (mr & Hmr & Hne & Hall).
  destruct (merge_ranges_shared range_parse g mr (snd k) Hmr Hne Hall)
    as (ms & me & Hm & _).
  unfold condense_body. cbn [snd]. rewrite Hm. cbn [rbind].
  destruct (sizes !! snd k) as [size|] eqn:Es; [|done].
  intros [= <-]. cbn [bed_fw tpf_fw].
  eexists (snd k, _, _, _). split; [reflexivity|]. split; [reflexivity|].
  simpl. destruct (_ >? _)%Z; auto.
Qed.

(** X19. When [prepare] completes, its two output files go line by line:
    after the telomere line of the TPF file, the n-th TPF line names, as
    [chr:start-end], the interval of the n-th line of the patchers BED file,
    and carries the strand "-" or "+". *)
Theorem prepare_files_aligned range_parse bb sizes pf bed st :
  prepare range_parse bb sizes pf bed = ok st →
  ∃ entries,
    bed_fw st = map bed_line entries ∧
    tpf_fw st = join tab ["telomere"; pf; "na"] :: map (tpf_line pf) entries ∧
    Forall (fun entry => snd entry = "-" ∨ snd entry = "+") entries.
Proof.
  unfold prepare, condense.
  apply (for_groups_invariant (condense_key range_parse)
           (condense_body range_parse sizes pf)
           (fun st =>
              ∃ entries,
                bed_fw st = map bed_line entries ∧
                tpf_fw st
                = join tab ["telomere"; pf; "na"] :: map (tpf_line pf) entries ∧
                Forall (fun entry => snd entry = "-" ∨ snd entry = "+")
                       entries));
    [|done|by exists []].
  intros st0 k g st1 Hg (entries & Hbed & Htpf & Hstr) Hbody.
  apply (condense_body_entry _ _ _ _ _ _ _ Hg) in Hbody
    as (entry & Hb & Ht & Hs).
  exists (entries ++ [entry]). rewrite !map_app. simpl.
  rewrite Hb, Ht, Hbed, Htpf. split; [done|]. split; [done|].
  apply Forall_app. split; [done|]. by apply Forall_cons_2.
Qed.

Lemma prepare_files_aligned_witness :
  ∃ entries,
    [join tab ["Scaffold1"; "0"; "5000"]; join tab ["Scaffold2"; "0"; "10300"]]
    = map bed_line entries ∧
    [join tab ["telomere"; "om"; "na"];
     join tab ["Scaffold1:0-5000"; "om"; "+"];
     join tab ["Scaffold2:0-10300"; "om"; "+"]]
    = join tab ["telomere"; "om"; "na"] :: map (tpf_line "om") entries ∧
    Forall (fun entry => snd entry = "-" ∨ snd entry = "+") entries.
Proof.
  apply (prepare_files_aligned range_parse_accn "Scaffold" sizes_example "om"
           [bed_unstranded; bed_minus; bed_other]
           {| bed_fw := [join tab ["Scaffold1"; "0"; "5000"];
                         join tab ["Scaffold2"; "0"; "10300"]];
              tpf_fw := [join tab ["telomere"; "om"; "na"];
                         join tab ["Scaffold1:0-5000"; "om"; "+"];
                         join tab ["Scaffold2:0-10300"; "om"; "+"]];
              log := [] |}).
  reflexivity.
Defined.

Lemma condense_body_size range_parse sizes pf st k g :
  group_of (condense_key range_parse) k g →
  match sizes !! snd k with
  | Some _ => ∃ st', condense_body range_parse sizes pf st (k, g) = ok st'
  | None => condense_body range_parse sizes pf st (k, g) = raise KeyError
  end.
Proof.
  intros Hg.
  destruct (condense_group_shared _ _ _ Hg) as (mr & Hmr & Hne & Hall).
  destruct (merge_ranges_shared range_parse g mr (snd k) Hmr Hne Hall)
    as (ms & me & Hm & _).
  unfold condense_body. cbn [snd]. rewrite Hm. cbn [rbind].
  destruct (sizes !! snd k); [by eexists | done].
Qed.

Lemma groupby_group_of {A K} `{EqDecision K} (key : A → result K)
    (key' : A → K) (l : list A) :
  (∀ x, x ∈ l → key x = ok (key' x)) →
  Forall (fun kg => group_of key (fst kg) (snd kg)) (groupby key' l).
Proof.
  intros Hkey. destruct (groupby_members key' l) as [Hcat Hmem].
  apply Forall_forall. intros [k g] Hin. simpl.
  rewrite Forall_forall in Hmem. destruct (Hmem _ Hin) as [Hne Hk].
  simpl in *. split; [done|]. intros x Hx.
  rewrite Forall_forall in Hk. rewrite <- (Hk x Hx). apply Hkey.
  rewrite <- Hcat. apply elem_of_concat. exists g. split; [|done].
  by apply (list_elem_of_fmap_2 snd _ (k, g)).
Qed.

Lemma condense_groups_key_error range_parse sizes pf groups :
  Forall (fun kg => group_of (condense_key range_parse) (fst kg) (snd kg))
         groups →
  (∃ kg, kg ∈ groups ∧ sizes !! snd (fst kg) = None) →
  ∀ st, for_each (condense_body range_parse sizes pf) groups st
        = raise KeyError.
Proof.
  induction 1 as [|[k g] groups Hg _ IH]; intros (kg & Hin & Hmiss) st.
  { by apply elem_of_nil in Hin. }
  cbn [for_each]. simpl in Hg.
  pose proof (condense_body_size range_parse sizes pf st k g Hg) as Hbody.
  destruct (sizes !! snd k) as [size|] eqn:Es.
  - destruct Hbody as [st' ->]. cbn [rbind]. apply IH.
    apply elem_of_cons in Hin as [->|Hin]; [simpl in Hmiss; congruence|].
    by exists kg.
  - by rewrite Hbody.
Qed.

(** X20. When every accession of the uniq bed parses and the parsed
    sequence id of some record has no entry in the table of sequence sizes,
    [prepare] raises [KeyError]. *)
Theorem prepare_missing_size range_parse bb sizes pf bed
    (parsed : BedLine.t → Range.t) :
  (∀ x, x ∈ make_uniq bb bed →
        range_parse (BedLine.accn x) = ok (parsed x)) →
  (∃ x, x ∈ make_uniq bb bed ∧ sizes !! Range.seqid (parsed x) = None) →
  prepare range_parse bb sizes pf bed = raise KeyError.
Proof.
  intros Hparse (x & Hx & Hmiss). unfold prepare, condense.
  set (key' := fun x : BedLine.t => (lambda_is_bb, Range.seqid (parsed x))).
  assert (Hkey : ∀ y, y ∈ make_uniq bb bed →
                      condense_key range_parse y = ok (key' y)).
  { intros y Hy. unfold condense_key. by rewrite (Hparse y Hy). }
  rewrite (for_groups_groupby _ key' _ _ _ Hkey).
  apply condense_groups_key_error; [by apply groupby_group_of|].
  destruct (groupby_members key' (make_uniq bb bed)) as [Hcat Hmem].
  rewrite <- Hcat in Hx. apply elem_of_concat in Hx as (g & Hg & Hxg).
  apply list_elem_of_fmap in Hg as ([k g'] & -> & Hin). simpl in Hxg.
  exists (k, g'). split; [done|]. simpl.
  rewrite Forall_forall in Hmem. destruct (Hmem _ Hin) as [_ Hk].
  simpl in Hk. rewrite Forall_forall in Hk. rewrite <- (Hk x Hxg). done.
Qed.

Lemma prepare_missing_size_witness :
  prepare range_parse_accn "Scaffold" {[ "Scaffold1" := 5000%Z ]} "om"
    [bed_unstranded; bed_minus; bed_other]
  = raise KeyError.
Proof.
  apply (prepare_missing_size range_parse_accn "Scaffold"
           {[ "Scaffold1" := 5000%Z ]} "om"
           [bed_unstranded; bed_minus; bed_other] parsed_example).
  - intros x Hx.
    change (x ∈ [bed_unstranded; bed_minus; bed_other]) in Hx.
    repeat (apply elem_of_cons in Hx as [->|Hx]; [reflexivity|]).
    by apply elem_of_nil in Hx.
  - exists bed_other. split; [|reflexivity].
    change (bed_other ∈ [bed_unstranded; bed_minus; bed_other]).
    right. right. left.
Defined.

(** ** The lines and the overlap calls of [certificate] *)

Lemma directions_count
    (getNorthSouthClone : nat → option TPFLine.t * option TPFLine.t)
    (components : list (nat * TPFLine.t)) :
  length (flat_map (directions getNorthSouthClone) components)
  = (2 * length (filter (fun a => TPFLine.is_gap a = false)
                        (map snd components)))%nat.
Proof.
  induction components as [|[i a] components IH]; [done|].
  cbn [flat_map map snd]. rewrite length_app, IH, filter_cons.
  unfold directions. destruct (TPFLine.is_gap a); simpl; [lia|].
  destruct (getNorthSouthClone i). simpl. lia.
Qed.

Lemma snd_zip_seq {A} (l : list A) start :
  map snd (zip (seq start (length l)) l) = l.
Proof.
  revert start. induction l as [|x l IH]; intros start; simpl; [done|].
  by rewrite IH.
Qed.

(** X21. When [certificate] completes, it has written exactly two lines
    for each component of the tiling path that is not a gap, and none for
    the gaps. *)
Theorem certificate_two_lines
    (getNorthSouthClone : nat → option TPFLine.t * option TPFLine.t)
    (op_exists : string → bool)
    (first_size : string → result (string * Z))
    (overlap : list string → option string)
    (data : gmap (string * string * string) string) (bb : string)
    (tpf : list TPFLine.t) (st : certificate_state) :
  certificate getNorthSouthClone op_exists first_size overlap data bb tpf
  = ok st →
  (length (fw st)
   = 2 * length (filter (fun a => TPFLine.is_gap a = false) tpf))%nat.
Proof.
  unfold certificate. intros H.
  apply certificate_loop_trace in H as (lines & Hfw & Hr & _).
  simpl in Hfw. subst lines. apply Forall2_length in Hr.
  by rewrite <- Hr, directions_count, snd_zip_seq.
Qed.

(** X22. If the loaded certificate data holds the key of every pair of a
    clone and a neighbouring clone of the tiling path, a completed run of
    [certificate] makes no call to [overlap]. *)
Theorem certificate_all_stored
    (getNorthSouthClone : nat → option TPFLine.t * option TPFLine.t)
    (op_exists : string → bool)
    (first_size : string → result (string * Z))
    (overlap : list string → option string)
    (data : gmap (string * string * string) string) (bb : string)
    (tpf : list TPFLine.t) (st : certificate_state) :
  certificate getNorthSouthClone op_exists first_size overlap data bb tpf
  = ok st →
  (∀ d key, d ∈ neighbour_pairs getNorthSouthClone tpf →
            pair_key d = Some key → is_Some (data !! key)) →
  overlap_calls st = [].
Proof.
  unfold certificate, neighbour_pairs. intros H Hall.
  apply certificate_loop_trace in H as (lines & _ & _ & Hov).
  simpl in Hov. rewrite Hov. clear Hov.
  induction (flat_map _ _) as [|d ds IH]; [done|]. simpl.
  assert (overlap_call_of data d = None) as ->.
  { unfold overlap_call_of.
    destruct (pair_key d) as [[[tag aid] bid]|] eqn:Ek; [|done].
    destruct (Hall d _ (list_elem_of_here _ _) Ek) as [line ->]. done. }
  apply IH. intros d' key Hd. apply Hall. by right.
Qed.

(** X23. When the first line of the tiling path is a clone with no north
    neighbour, [certificate] raises [UnboundLocalError]: the telomere
    branch does not assign [bphase], which the line to print reads. *)
Theorem certificate_first_telomere
    (getNorthSouthClone : nat → option TPFLine.t * option TPFLine.t)
    (op_exists : string → bool)
    (first_size : string → result (string * Z))
    (overlap : list string → option string)
    (data : gmap (string * string * string) string) (bb : string)
    (a : TPFLine.t) (rest : list TPFLine.t) (aphase asize : Z) :
  TPFLine.is_gap a = false →
  op_exists (op_join fastadir (TPFLine.component_id a +:+ ".fasta")) = true →
  fst (getNorthSouthClone 0%nat) = None →
  phase first_size bb (TPFLine.component_id a) = ok (aphase, asize) →
  certificate getNorthSouthClone op_exists first_size overlap data bb
    (a :: rest)
  = raise UnboundLocalError.
Proof.
  intros Hgap Hex Hnorth Hphase. unfold certificate.
  cbn [length seq zip zip_with for_each].
  unfold component_body at 1. rewrite Hgap, Hex. cbn [negb].
  destruct (getNorthSouthClone 0%nat) as [north south]. simpl in Hnorth.
  subst north. rewrite Hphase. done.
Qed.

Lemma certificate_two_lines_witness :
  (length (fw certificate_example_state)
   = 2 * length (filter (fun a => TPFLine.is_gap a = false)
                        [gap_line; clone_a; clone_b]))%nat.
Proof.
  apply (certificate_two_lines neighbours_example (fun _ => true)
           first_size_example (fun _ => None) data_example "Scaffold"
           [gap_line; clone_a; clone_b] certificate_example_state).
  reflexivity.
Defined.

Lemma certificate_all_stored_witness :
  overlap_calls
    {| fw := [join tab ["North"; "chr1"; "1"; "0"; "AC1"; "clone"; "58443"];
              stored_line; stored_line_back;
              join tab ["South"; "chr1"; "1"; "1"; "AC2"; "telomere";
                        "37835"]];
       overlap_calls := [];
       bphase := Some (PhaseInt 1) |}
  = [].
Proof.
  apply (certificate_all_stored neighbours_example (fun _ => true)
           first_size_example (fun _ => Some "never used") data_full
           "Scaffold" [gap_line; clone_a; clone_b]).
  - reflexivity.
  - intros d key Hd.
    change (d ∈ [(clone_a, "North", Some gap_line);
                 (clone_a, "South", Some clone_b);
                 (clone_b, "North", Some clone_a);
                 (clone_b, "South", None)]) in Hd.
    repeat (apply elem_of_cons in Hd as [->|Hd];
            [intros [= <-]; by eexists || discriminate|]).
    by apply elem_of_nil in Hd.
Defined.

Lemma certificate_first_telomere_witness :
  certificate neighbours_at_end (fun _ => true) first_size_example
    (fun _ => None) data_example "Scaffold" [clone_a; clone_b]
  = raise UnboundLocalError.
Proof.
  apply (certificate_first_telomere neighbours_at_end (fun _ => true)
           first_size_example (fun _ => None) data_example "Scaffold"
           clone_a [clone_b] 1%Z 58443%Z).
  - reflexivity.
  - reflexivity.
  - reflexivity.
  - reflexivity.
Defined.
